(** * iview: a minimal image viewer (sbinet/iview, main.go)

    A shallow embedding of [main.go]: the directory expansion
    ([findFiles], [dirImages]), the fan-out/fan-in decoder
    ([decodeImages]), the flag checks of [init] and [main], and the event
    loop that [main] hands to the windowing toolkit.

    Conventions.
    - A Go [int] is a [Z] with 64-bit two's-complement wrap-around
      ([wrap]); every [+], [-], [++], [--] and [+=] of the source goes
      through it.
    - The operating system, the image decoders and the windowing toolkit
      are an explicit environment: what [os.Stat], [os.Open],
      [image.Decode], [NewWindow] and [NewBuffer] answer is an input.
    - So is the Go scheduler: the order in which it runs the goroutines
      of [decodeImages] is an input of a run, and the order of the lines
      that they log follows from it.
    - What the program writes or asks the toolkit to do is a list of
      [action]s, in program order. *)

From Stdlib Require Import ZArith Lia Ascii String.
From stdpp Require Import base list strings gmap relations.

Local Open Scope Z_scope.

(** ** Go's [int] *)

Definition int_bits : Z := 64.
Definition int_min : Z := - 2 ^ (int_bits - 1).
Definition int_max : Z := 2 ^ (int_bits - 1) - 1.

Definition in_int (z : Z) : Prop := int_min <= z <= int_max.

(** Two's-complement reduction of a mathematical integer to an [int]. *)
Definition wrap (z : Z) : Z :=
  (z + 2 ^ (int_bits - 1)) mod 2 ^ int_bits - 2 ^ (int_bits - 1).

Definition int_add (a b : Z) : Z := wrap (a + b).
Definition int_sub (a b : Z) : Z := wrap (a - b).

(** [len(s)] of a slice. *)
Definition len {A} (s : list A) : Z := Z.of_nat (length s).

(** [s[i]]: [None] stands for the run-time panic "index out of range". *)
Definition index {A} (s : list A) (i : Z) : option A :=
  if (0 <=? i) && (i <? len s) then s !! Z.to_nat i else None.

Definition error := string.

(** ** Package [image] *)

Module image.
Record Point := { X : Z; Y : Z }.
Record Rectangle := { Min : Point; Max : Point }.

(** The zero value [image.Point{}]. *)
Definition ZP : Point := {| X := 0; Y := 0 |}.

Definition Dx (r : Rectangle) : Z := int_sub (X (Max r)) (X (Min r)).
Definition Dy (r : Rectangle) : Z := int_sub (Y (Max r)) (Y (Min r)).

(** A decoded [image.Image]: its bounds, and its pixels as an opaque
    token. *)
Record Image := { Bounds : Rectangle; Pix : nat }.
End image.

(** ** Events of the toolkit *)

Module mouse.
Inductive Button :=
  ButtonNone | ButtonLeft | ButtonMiddle | ButtonRight.
Inductive Direction := DirNone | DirPress | DirRelease.
(** [X] and [Y] hold [int(e.X)] and [int(e.Y)], the only way the
    program reads the event's [float32] coordinates. *)
Record Event :=
  { X : Z; Y : Z; Button_ : Button; Direction_ : Direction }.
End mouse.

Module key.
Inductive Code :=
| CodeEscape | CodeQ | CodeRightArrow | CodeLeftArrow | CodeR | CodeZ
| CodeOther (c : nat).
Inductive Direction := DirNone | DirPress | DirRelease.
Record Event := { Code_ : Code; Direction_ : Direction }.
End key.

Module paint.
Record Event := { External : bool }.
End paint.

Module size.
(** A [size.Event]. [WinSize] is what [w.w.Size()] answers while the
    event is handled and [NewBuffer] what [s.NewBuffer] answers for
    that size ([None]: a buffer, [Some err]: the error). *)
Record Event := { WinSize : image.Point; NewBuffer : option error }.
End size.

(** What [w.next()] can return, by the arms of the type switch. *)
Inductive event :=
| EvMouse (e : mouse.Event)
| EvKey (e : key.Event)
| EvPaint (e : paint.Event)
| EvSize (e : size.Event)
| EvUploaded
| EvError (e : error)
| EvOther (descr : string).

#[global] Instance mouse_Button_eq_dec : EqDecision mouse.Button.
Proof. solve_decision. Defined.
#[global] Instance mouse_Direction_eq_dec : EqDecision mouse.Direction.
Proof. solve_decision. Defined.
#[global] Instance key_Direction_eq_dec : EqDecision key.Direction.
Proof. solve_decision. Defined.

(** ** Observable actions *)

Inductive log_entry :=
| LogCantAccess (f : string) (err : error)
    (* log.Print("Can't access", f, err) *)
| LogOpenErr (err : error)
    (* log.Println(err) *)
| LogDecodeErr (fName : string) (err : error)
    (* log.Printf("Could not decode '%s' into ...: %s", fName, err) *)
| LogDecoded (fName kind : string)
    (* log.Printf("Decoded '%s' into image type '%s' (%s).", ...); the
       elapsed time is not modelled *)
| LogNoImagesSpecified
    (* log.Print("No images specified.\n\n") *)
| LogAutoResize (name : string)
    (* log.Printf("auto-resize from [%s]...\n", names[0]) *)
| LogMsg (msg : string)
| LogErr (err : error).

Inductive action :=
| Log (l : log_entry)
| Stderr (s : string)                 (* fmt.Fprint(os.Stderr, s) *)
| UsageLine                           (* the "Usage: ..." line of usage() *)
| PrintDefaults                       (* flag.PrintDefaults() *)
| Stdout (s : string)                 (* fmt.Printf("got %#v\n", e) *)
| StartCPUProfile (file : string)
| StopCPUProfile                      (* the deferred pprof.StopCPUProfile() *)
| DriverMain                          (* driver.Main(f): the toolkit starts and calls f *)
| WFill                               (* w.w.Fill(w.b.Bounds(), bkgCol, draw.Src) *)
| WDisplay (img : image.Image) (orig : image.Point)
    (* w.display(img): Fill, Draw, Upload at vpCenter + w.orig, Publish *)
| WSendPaint                          (* w.w.Send(paint.Event{}) *)
| WResize (p : image.Point)           (* w.w.Resize(p) *)
| WRelease.                           (* the deferred w.Release() *)

(** ** The window and the loop state *)

(** The fields of [window] that the program reads back. [s] and [w] are
    toolkit handles; of the buffer [b] the size it was allocated with is
    kept. *)
Record window := {
  b : image.Point;
  orig : image.Point;
  pan : bool;
  mouse_ : image.Point          (* field [mouse] *)
}.

(** The variables that live across iterations of the [for] loop: the
    window [w] and the index [i] of the displayed image. *)
Record loop_state := { w : window; i : Z }.

Definition set_orig (p : image.Point) (w0 : window) : window :=
  {| b := b w0; orig := p; pan := pan w0; mouse_ := mouse_ w0 |}.
Definition set_drag (d : bool) (m : image.Point) (w0 : window) : window :=
  {| b := b w0; orig := orig w0; pan := d; mouse_ := m |}.
Definition set_b (p : image.Point) (w0 : window) : window :=
  {| b := p; orig := orig w0; pan := pan w0; mouse_ := mouse_ w0 |}.

(** How one iteration of the loop ends. *)
Inductive control :=
| Next (st : loop_state)      (* back to [w.next()] *)
| Return                      (* [return] from the callback *)
| Fatal (err : error)         (* [log.Fatal(err)] *)
| IndexPanic.                 (* [imgs[i]] out of range *)

(** ** One iteration of the event loop (main.go, lines 130-216) *)

Definition on_mouse (st : loop_state) (e : mouse.Event)
  : list action * control :=
  let w0 := w st in
  match mouse.Direction_ e with
  | mouse.DirPress =>
      if decide (mouse.Button_ e = mouse.ButtonLeft) then
        ([], Next {| w := set_drag true
                            {| image.X := mouse.X e; image.Y := mouse.Y e |} w0;
                     i := i st |})
      else ([], Next st)
  | mouse.DirRelease =>
      if decide (mouse.Button_ e = mouse.ButtonLeft) then
        ([], Next {| w := set_drag false image.ZP w0; i := i st |})
      else ([], Next st)
  | mouse.DirNone =>
      if pan w0 then
        let pos := {| image.X := mouse.X e; image.Y := mouse.Y e |} in
        let o := {| image.X := int_add (image.X (orig w0))
                                 (int_sub (image.X pos) (image.X (mouse_ w0)));
                    image.Y := int_add (image.Y (orig w0))
                                 (int_sub (image.Y pos) (image.Y (mouse_ w0))) |} in
        ([WSendPaint],
         Next {| w := set_drag (pan w0) pos (set_orig o w0); i := i st |})
      else ([], Next st)
  end.

Definition send_if (repaint : bool) : list action :=
  if repaint then [WSendPaint] else [].

Definition on_key (imgs : list image.Image) (st : loop_state) (e : key.Event)
  : list action * control :=
  let w0 := w st in
  let pressed := bool_decide (key.Direction_ e = key.DirPress) in
  match key.Code_ e with
  | key.CodeEscape | key.CodeQ => ([], Return)
  | key.CodeRightArrow =>
      if pressed then
        let i1 := if i st =? int_sub (len imgs) 1 then -1 else i st in
        (send_if true,
         Next {| w := set_orig image.ZP w0; i := int_add i1 1 |})
      else (send_if false, Next st)
  | key.CodeLeftArrow =>
      if pressed then
        let i1 := if i st =? 0 then len imgs else i st in
        (send_if true,
         Next {| w := set_orig image.ZP w0; i := int_sub i1 1 |})
      else (send_if false, Next st)
  | key.CodeR =>
      if pressed then (send_if true, Next st) else (send_if false, Next st)
  | key.CodeZ =>
      if pressed then
        match index imgs (i st) with
        | None => ([], IndexPanic)
        | Some img =>
            (WResize (image.Max (image.Bounds img)) :: send_if false,
             Next {| w := set_orig image.ZP w0; i := i st |})
        end
      else (send_if false, Next st)
  | key.CodeOther _ => (send_if false, Next st)
  end.

Definition on_paint (imgs : list image.Image) (st : loop_state)
    (e : paint.Event) : list action * control :=
  if paint.External e then ([], Next st)
  else match index imgs (i st) with
       | None => ([], IndexPanic)
       | Some img => ([WDisplay img (orig (w st))], Next st)
       end.

Definition on_size (imgs : list image.Image) (st : loop_state)
    (e : size.Event) : list action * control :=
  match size.NewBuffer e with
  | Some err => ([Log (LogErr err)], Fatal err)
  | None =>
      let w1 := set_b (size.WinSize e) (w st) in
      match index imgs (i st) with
      | None => ([], IndexPanic)
      | Some img =>
          ([WDisplay img (orig w1)], Next {| w := w1; i := i st |})
      end
  end.

Definition handle (imgs : list image.Image) (st : loop_state) (e : event)
  : list action * control :=
  match e with
  | EvMouse e => on_mouse st e
  | EvKey e => on_key imgs st e
  | EvPaint e => on_paint imgs st e
  | EvSize e => on_size imgs st e
  | EvUploaded => ([], Next st)
  | EvError e => ([Log (LogErr e)], Next st)
  | EvOther d => ([Stdout d], Next st)
  end.

(** The [for] loop, on the events that [w.next()] delivers. When the
    events run out the loop is blocked in [w.next()]: [Next st]. *)
Fixpoint loop (imgs : list image.Image) (st : loop_state) (evs : list event)
  : list action * control :=
  match evs with
  | [] => ([], Next st)
  | e :: evs' =>
      match handle imgs st e with
      | (acts, Next st') =>
          let '(acts', c) := loop imgs st' evs' in (acts ++ acts', c)
      | r => r
      end
  end.

(** The state in which the loop is entered: [newWindow] leaves [orig],
    [pan] and [mouse] at their zero values, and [var i int] is 0. *)
Definition initial_state (winSize : image.Point) : loop_state :=
  {| w := {| b := winSize; orig := image.ZP; pan := false;
             mouse_ := image.ZP |};
     i := 0 |}.

(** ** Package [path/filepath] *)

Module filepath.
Definition sep : ascii := "/"%char.
Definition dot : ascii := "."%char.

(** The loop of [Ext], which walks [path] from its last byte towards
    the first: [rpath] is what is left to visit (reversed) and [suffix]
    what has been visited. *)
Fixpoint ext_scan (rpath suffix : list ascii) : list ascii :=
  match rpath with
  | [] => []
  | c :: r =>
      if decide (c = sep) then []
      else if decide (c = dot) then c :: suffix
      else ext_scan r (c :: suffix)
  end.

(** [filepath.Ext] on a target whose path separator is [/]: the suffix
    that starts at the last dot of the last element of [path], empty
    when there is none. *)
Definition Ext (path : string) : string :=
  string_of_list_ascii (ext_scan (rev (list_ascii_of_string path)) []).
End filepath.

(** ** The operating system, the scheduler and the decoders, as seen by
    the program *)

(** The threads of [decodeImages]: its caller, and the worker of the
    file of index [i]. *)
Inductive thread := Main | Go (i : nat).

Inductive stat_result :=
| StatErr (err : error)
| StatOk (isDir : bool).

Record OS := {
  (** [os.Stat(f)] *)
  os_Stat : string -> stat_result;
  (** [os.Open(name)]: [None] is success *)
  os_Open : string -> option error;
  (** [fd.Readdirnames(0)] on the directory opened from the path: the
      names returned (the error is dropped by the caller) *)
  os_Readdirnames : string -> list string;
  (** [image.Decode(file)] on the file opened from the path: the error,
      or the image and the name of its format *)
  image_Decode : string -> error + (image.Image * string);
  (** [os.Create(name)]: [None] is success *)
  os_Create : string -> option error;
  (** the threads that the Go scheduler runs while [main] is in
      [decodeImages], in the order in which it runs them *)
  go_schedule : list thread
}.

(** The toolkit's screen during [newWindow]. *)
Record Screen := {
  s_NewWindow : image.Point -> option error;
  s_NewBuffer : image.Point -> option error
}.

(** ** Package [flag] and the flags of [init] (main.go, lines 50-68) *)

Module flag.
Inductive Value :=
| BoolValue (dflt : bool)
| IntValue (dflt : Z)
| StringValue (dflt : string).

Record Flag := { Usage : string; DefValue : Value }.

(** [FlagSet.Var]: the set of defined flags is a map from names to
    flags; defining a name twice panics ([None]). *)
Definition Var (name : string) (v : Value) (usage : string)
    (formal : gmap string Flag) : option (gmap string Flag) :=
  match formal !! name with
  | Some _ => None
  | None => Some (<[name := {| Usage := usage; DefValue := v |}]> formal)
  end.

Definition BoolVar (name : string) (value : bool) := Var name (BoolValue value).
Definition IntVar (name : string) (value : Z) := Var name (IntValue value).
Definition StringVar (name : string) (value : string) :=
  Var name (StringValue value).
End flag.

(** The flag definitions of [init], in source order. *)
Definition init_flags : option (gmap string flag.Flag) :=
  fs ← flag.BoolVar "v" false
         "If set, logging output will be printed to stderr." ∅;
  fs ← flag.IntVar "width" 600 "The initial width of the window." fs;
  fs ← flag.IntVar "height" 600 "The initial height of the window." fs;
  fs ← flag.BoolVar "auto-resize" false
         "If set, window will resize to size of first image." fs;
  fs ← flag.IntVar "increment" 20
         "The increment (in pixels) used to pan the image." fs;
  flag.StringVar "profile" EmptyString
    "If set, a CPU profile will be saved to the file name provided." fs.

(** The package-level variables once [flag.Parse()] has returned, and
    [flag.Args()]. A command line that [flag.Parse] rejects never gets
    this far and is not modelled. *)
Record cmdline := {
  flagVerbose : bool;
  flagWidth : Z;
  flagHeight : Z;
  flagAutoResize : bool;
  flagStepIncrement : Z;
  flagProfile : string;
  Args : list string
}.

(** ** Running the program: output and early exits *)

(** How a run ends other than by returning. *)
Inductive exit :=
| Exit (code : Z)            (* os.Exit(code) *)
| Waiting (st : loop_state)  (* in [w.next()], all delivered events handled *)
| Panic.                     (* run-time panic *)

(** A computation that writes actions and then yields a value or ends
    the run. *)
Definition M (A : Type) : Type := list action * (A + exit).

#[global] Instance M_ret : MRet M := fun A a => ([], inl a).
#[global] Instance M_bind : MBind M := fun A B f m =>
  match m with
  | (o, inl a) => let '(o', r) := f a in (o ++ o', r)
  | (o, inr e) => (o, inr e)
  end.

Definition emit (a : action) : M unit := ([a], inl tt).
Definition halt {A} (e : exit) : M A := ([], inr e).

(** A call that writes and returns. *)
Definition logged {A} (r : list action * A) : M A := (r.1, inl r.2).

(** The string of the one byte 10, written ["\n"] in Go. *)
Definition newline : string := String "010"%char EmptyString.

(** [log.Fatal(v)]: [log.Print(v)] followed by [os.Exit(1)]. *)
Definition log_Fatal {A} (l : log_entry) : M A :=
  emit (Log l) ;; halt (Exit 1).

(** [usage()] (main.go, lines 76-81). *)
Definition usage {A} : M A :=
  emit UsageLine ;; emit PrintDefaults ;; halt (Exit 1).

(** The check at the end of [init] (main.go, lines 70-73). *)
Definition init (c : cmdline) : M unit :=
  if (flagWidth c =? 0) || (flagHeight c =? 0) then
    log_Fatal (LogMsg "The width and height must be non-zero values.")
  else mret tt.

(** [newWindow] (main.go, lines 231-252). *)
Definition newWindow (s : Screen) (size : image.Point) : error + window :=
  match s_NewWindow s size with
  | Some err => inl err
  | None =>
      match s_NewBuffer s size with
      | Some err => inl err
      | None =>
          inr {| b := size; orig := image.ZP; pan := false;
                 mouse_ := image.ZP |}
      end
  end.

(** An indexing expression inside a computation. *)
Definition at_index {A} (s : list A) (i : Z) : M A :=
  match index s i with
  | Some a => mret a
  | None => halt Panic
  end.

(** The [for] loop inside a run. On [return] the deferred [w.Release()]
    runs. *)
Definition run_loop (imgs : list image.Image) (st : loop_state)
    (evs : list event) : M unit :=
  match loop imgs st evs with
  | (acts, Next st') => (acts, inr (Waiting st'))
  | (acts, Return) => (acts ++ [WRelease], inl tt)
  | (acts, Fatal _) => (acts, inr (Exit 1))
  | (acts, IndexPanic) => (acts, inr Panic)
  end.

(** The size of the window to open (main.go, lines 110-116). *)
Definition window_size (c : cmdline) (names : list string)
    (imgs : list image.Image) : M image.Point :=
  if flagAutoResize c then
    img0 ← at_index imgs 0;
    let b := image.Bounds img0 in
    name0 ← at_index names 0;
    emit (Log (LogAutoResize name0)) ;;
    mret {| image.X := image.Dx b; image.Y := image.Dy b |}
  else mret {| image.X := flagWidth c; image.Y := flagHeight c |}.

(** The function that [main] passes to [driver.Main] (main.go, lines
    104-218), on the events [evs] delivered so far. *)
Definition callback (c : cmdline) (s : Screen) (names : list string)
    (imgs : list image.Image) (evs : list event) : M unit :=
  (if len imgs =? 0 then
     log_Fatal (LogMsg "No images specified could be shown. Quitting...")
   else mret tt) ;;
  winSize ← window_size c names imgs;
  match newWindow s winSize with
  | inl err => log_Fatal (LogErr err)
  | inr w0 =>
      let st := {| w := w0; i := 0 |} in
      emit WFill ;;
      img0 ← at_index imgs (i st);
      emit (WDisplay img0 (orig w0)) ;;
      run_loop imgs st evs
  end.

Section Iview.

(** [filepath.Join] is taken as given. [basename] is a helper of the
    repository whose file is not part of the sources at hand; it is a
    parameter of the development. *)
Variable Join : string -> string -> string.
Variable basename : string -> string.
Variable os : OS.

(** ** [dirImages] and [findFiles] (main.go, lines 297-324) *)

(** With [fd == nil] (the open failed) [Readdirnames] returns no name. *)
Definition readdir (dir : string) : list string :=
  match os_Open os dir with
  | Some _ => []
  | None => os_Readdirnames os dir
  end.

Definition dirImages (dir : string) : list string :=
  fold_left
    (fun files f =>
       if decide (filepath.Ext f = EmptyString) then files
       else files ++ [Join dir f])
    (readdir dir) [].

(** The body of the [range args] loop: the log lines and the files so
    far, and the argument [f]. *)
Definition findFiles_body (acc : list action * list string) (f : string)
  : list action * list string :=
  match os_Stat os f with
  | StatErr err => (acc.1 ++ [Log (LogCantAccess f err)], acc.2)
  | StatOk true => (acc.1, acc.2 ++ dirImages f)
  | StatOk false => (acc.1, acc.2 ++ [f])
  end.

(** [findFiles args]: what it logs, and the slice it returns. *)
Definition findFiles (args : list string) : list action * list string :=
  fold_left findFiles_body args ([], []).

(** ** [decodeImages] (main.go, lines 330-379)

    One goroutine per file and one unbuffered channel per goroutine. The
    model is an interleaving semantics: a state holds the program point
    of the main goroutine, the slice [imgChans], the program point of
    every worker and the log; a step runs one thread up to its next
    visible operation. *)

(** The local type [tmpImage]. *)
Record tmpImage := { img : image.Image; name : string }.

(** An entry of [imgChans]. The channels are unbuffered, so an open
    channel holds nothing. *)
Inductive chan_state := ChNil | ChOpen | ChClosed.

(** Program points of the worker [go func(i, fName)]. *)
Inductive gpc :=
| GUnborn                                   (* the [go] statement has not run *)
| GOpen                                     (* at [os.Open(fName)] *)
| GOpenErr (err : error)                    (* at [log.Println(err)] *)
| GDecode                                   (* at [image.Decode(file)] *)
| GDecodeErr (err : error)                  (* at [log.Printf("Could not decode ...")] *)
| GDecoded (im : image.Image) (kind : string) (* at [log.Printf("Decoded ...")] *)
| GClose                                    (* at [close(imgChans[i]); return] *)
| GSend (t : tmpImage)                      (* blocked at [imgChans[i] <- t] *)
| GDone.                                    (* returned *)

(** Program points of the caller. *)
Inductive mpc :=
| MSpawn (k : nat)
    (* first loop, about to start iteration [k] *)
| MCollect (k : nat) (names : list string) (imgs : list image.Image)
    (* second loop, about to receive from [imgChans[k]] *)
| MReturn (names : list string) (imgs : list image.Image).

Record dstate := {
  d_main : mpc;
  imgChans : list chan_state;
  gos : list gpc;
  d_log : list action
}.

Definition d_init (imageFiles : list string) : dstate :=
  {| d_main := MSpawn 0;
     imgChans := replicate (length imageFiles) ChNil;
     gos := replicate (length imageFiles) GUnborn;
     d_log := [] |}.

Definition set_go (i : nat) (g : gpc) (s : dstate) : dstate :=
  {| d_main := d_main s; imgChans := imgChans s;
     gos := <[i:=g]> (gos s); d_log := d_log s |}.

Definition log_go (i : nat) (l : log_entry) (g : gpc) (s : dstate) : dstate :=
  {| d_main := d_main s; imgChans := imgChans s;
     gos := <[i:=g]> (gos s); d_log := d_log s ++ [Log l] |}.

(** One step of worker [i]; [None] when it cannot move (not started,
    blocked in its send, or returned). *)
Definition step_go (imageFiles : list string) (i : nat) (s : dstate)
  : option dstate :=
  match imageFiles !! i, gos s !! i with
  | Some fName, Some g =>
      match g with
      | GOpen =>
          Some (set_go i match os_Open os fName with
                         | Some err => GOpenErr err
                         | None => GDecode
                         end s)
      | GOpenErr err => Some (log_go i (LogOpenErr err) GClose s)
      | GDecode =>
          Some (set_go i match image_Decode os fName with
                         | inl err => GDecodeErr err
                         | inr (im, kind) => GDecoded im kind
                         end s)
      | GDecodeErr err => Some (log_go i (LogDecodeErr fName err) GClose s)
      | GDecoded im kind =>
          Some (log_go i (LogDecoded fName kind)
                  (GSend {| img := im; name := basename fName |}) s)
      | GClose =>
          Some {| d_main := d_main s;
                  imgChans := <[i:=ChClosed]> (imgChans s);
                  gos := <[i:=GDone]> (gos s);
                  d_log := d_log s |}
      | GUnborn | GSend _ | GDone => None
      end
  | _, _ => None
  end.

(** One step of the caller; [None] when it is blocked in a receive or
    has returned. A receive on an open channel is the rendezvous with the
    worker blocked in its send. *)
Definition step_main (imageFiles : list string) (s : dstate) : option dstate :=
  match d_main s with
  | MSpawn k =>
      match imageFiles !! k with
      | Some _ =>
          Some {| d_main := MSpawn (S k);
                  imgChans := <[k:=ChOpen]> (imgChans s);
                  gos := <[k:=GOpen]> (gos s);
                  d_log := d_log s |}
      | None =>
          Some {| d_main := MCollect 0 [] []; imgChans := imgChans s;
                  gos := gos s; d_log := d_log s |}
      end
  | MCollect k names imgs =>
      match imgChans s !! k with
      | None =>
          Some {| d_main := MReturn names imgs; imgChans := imgChans s;
                  gos := gos s; d_log := d_log s |}
      | Some ChClosed =>
          Some {| d_main := MCollect (S k) names imgs;
                  imgChans := imgChans s; gos := gos s; d_log := d_log s |}
      | Some ChOpen =>
          match gos s !! k with
          | Some (GSend t) =>
              Some {| d_main := MCollect (S k) (names ++ [name t])
                                  (imgs ++ [img t]);
                      imgChans := imgChans s;
                      gos := <[k:=GDone]> (gos s);
                      d_log := d_log s |}
          | _ => None
          end
      | Some ChNil => None
      end
  | MReturn _ _ => None
  end.

Definition step (imageFiles : list string) (t : thread) (s : dstate)
  : option dstate :=
  match t with
  | Main => step_main imageFiles s
  | Go i => step_go imageFiles i s
  end.

(** A schedule names the thread to run at each step; a thread that
    cannot move leaves the state as it is. *)
Fixpoint run (imageFiles : list string) (sched : list thread) (s : dstate)
  : dstate :=
  match sched with
  | [] => s
  | t :: sched' => run imageFiles sched' (default s (step imageFiles t s))
  end.

(** The schedule that always runs the first thread that can move, the
    caller first. *)
Fixpoint first_enabled (imageFiles : list string) (ts : list thread)
    (s : dstate) : option dstate :=
  match ts with
  | [] => None
  | t :: ts' =>
      match step imageFiles t s with
      | Some s' => Some s'
      | None => first_enabled imageFiles ts' s
      end
  end.

Definition threads (n : nat) : list thread := Main :: (Go <$> seq 0 n).

Fixpoint run_first (imageFiles : list string) (fuel : nat) (s : dstate)
  : dstate :=
  match fuel with
  | O => s
  | S fuel' =>
      match first_enabled imageFiles (threads (length imageFiles)) s with
      | Some s' => run_first imageFiles fuel' s'
      | None => s
      end
  end.

(** [decodeImages imageFiles] under the first-enabled schedule: what is
    logged, and the two slices returned. *)
Definition decodeImages (imageFiles : list string)
  : list action * (list string * list image.Image) :=
  let s := run_first imageFiles (6 * length imageFiles + 2)
             (d_init imageFiles) in
  match d_main s with
  | MReturn names imgs => (d_log s, (names, imgs))
  | _ => (d_log s, ([], []))
  end.

(** [decodeImages imageFiles] when the scheduler runs the threads of
    [sched], in that order, and after them the first thread that can
    move, until the caller returns. Every run of [decodeImages] to its
    [return] is of this form, with the threads it ran as [sched]. *)
Definition decodeImages_under (sched : list thread)
    (imageFiles : list string)
  : list action * (list string * list image.Image) :=
  let s := run_first imageFiles (6 * length imageFiles + 2)
             (run imageFiles sched (d_init imageFiles)) in
  match d_main s with
  | MReturn names imgs => (d_log s, (names, imgs))
  | _ => (d_log s, ([], []))
  end.

(** *** What the documentation of [decodeImages] promises

    These two definitions follow the comment above [decodeImages] ("an
    image file is skipped if it cannot be read or decoded"), not its
    code. *)

Definition decode_result (fName : string) : option (image.Image * string) :=
  match os_Open os fName with
  | Some _ => None
  | None =>
      match image_Decode os fName with
      | inl _ => None
      | inr r => Some r
      end
  end.

Definition decoded (imageFiles : list string) : list (string * image.Image) :=
  omap (fun f => (fun r => (basename f, r.1)) <$> decode_result f) imageFiles.

(** The line a worker logs for a file that cannot be shown. *)
Definition failure_entry (fName : string) : option log_entry :=
  match os_Open os fName with
  | Some err => Some (LogOpenErr err)
  | None =>
      match image_Decode os fName with
      | inl err => Some (LogDecodeErr fName err)
      | inr _ => None
      end
  end.

(** ** [main] (main.go, lines 83-219) *)

(** The profile set-up; the result tells whether a profile was started,
    that is whether [StopCPUProfile] is deferred. *)
Definition start_profile (c : cmdline) : M bool :=
  if 0 <? Z.of_nat (String.length (flagProfile c)) then
    match os_Create os (flagProfile c) with
    | Some err => log_Fatal (LogErr err)
    | None => emit (StartCPUProfile (flagProfile c)) ;; mret true
    end
  else mret false.

(** [main]. The goroutines of [decodeImages] run in the order that the
    scheduler of the environment gives; [driver.Main] is entered whatever
    [decodeImages] returned, and the callback runs inside it. *)
Definition main (c : cmdline) (s : Screen) (evs : list event) : M unit :=
  profiling ← start_profile c;
  (if len (Args c) =? 0 then
     emit (Stderr newline) ;; emit (Log LogNoImagesSpecified) ;; usage
   else mret tt) ;;
  files ← logged (findFiles (Args c));
  r ← logged (decodeImages_under (go_schedule os) files);
  emit DriverMain ;;
  callback c s r.1 r.2 evs ;;
  if profiling : bool then emit StopCPUProfile else mret tt.

(** The whole run: [init] runs before [main]. *)
Definition program (c : cmdline) (s : Screen) (evs : list event) : M unit :=
  init c ;; main c s evs.

End Iview.

(** * Vocabulary of the properties *)

(** ** The view state *)

(** The index of the displayed image is an index of [imgs]. *)
Definition index_ok (imgs : list image.Image) (st : loop_state) : Prop :=
  0 <= i st < len imgs.

(** The key with code [c] goes down. *)
Definition press (c : key.Code) : event :=
  EvKey {| key.Code_ := c; key.Direction_ := key.DirPress |}.

(** [image.Point{int(e.X), int(e.Y)}] *)
Definition pos_of (e : mouse.Event) : image.Point :=
  {| image.X := mouse.X e; image.Y := mouse.Y e |}.

(** A mouse event that is neither a press nor a release. *)
Definition is_motion (e : mouse.Event) : Prop :=
  mouse.Direction_ e = mouse.DirNone.

(** The left button goes in direction [d] at position [p]. *)
Definition left_button (d : mouse.Direction) (p : image.Point) : mouse.Event :=
  {| mouse.X := image.X p; mouse.Y := image.Y p;
     mouse.Button_ := mouse.ButtonLeft; mouse.Direction_ := d |}.

(** The pan offset [o] moved by the displacement from [p] to [q]. *)
Definition moved (o p q : image.Point) : image.Point :=
  {| image.X := int_add (image.X o) (int_sub (image.X q) (image.X p));
     image.Y := int_add (image.Y o) (int_sub (image.Y q) (image.Y p)) |}.

(** Both coordinates are values of type [int]. *)
Definition point_in_int (p : image.Point) : Prop :=
  in_int (image.X p) ∧ in_int (image.Y p).

(** ** Files, decoding and exits *)

(** The extension of [f] is not empty. *)
Definition has_ext (f : string) : Prop := filepath.Ext f ≠ EmptyString.

#[global] Instance has_ext_dec f : Decision (has_ext f).
Proof. unfold has_ext. apply _. Defined.

(** [image.Decode] succeeds on the file opened from [f]. *)
Definition decodes (os : OS) (f : string) : Prop :=
  is_Some (decode_result os f).

#[global] Instance decodes_dec os f : Decision (decodes os f).
Proof. unfold decodes. apply _. Defined.

(** The run ends in [os.Exit] with a non-zero status. *)
Definition aborts {A} (m : M A) : Prop :=
  ∃ code, m.2 = inr (Exit code) ∧ code ≠ 0.

(** The usage message is not printed. *)
Definition no_usage (acts : list action) : Prop := UsageLine ∉ acts.

(** The event is a key event with code Escape or Q. *)
Definition is_quit (ev : event) : Prop :=
  match ev with
  | EvKey k => key.Code_ k = key.CodeEscape ∨ key.Code_ k = key.CodeQ
  | _ => False
  end.

(** A size event for which no buffer can be allocated is delivered
    before any Escape or Q key event. *)
Definition buffer_fails (evs : list event) : Prop :=
  ∃ pre e post,
    evs = pre ++ EvSize e :: post
    ∧ is_Some (size.NewBuffer e)
    ∧ Forall (fun ev => ¬ is_quit ev) pre.

(** The size of the window that the callback opens. *)
Definition window_size_of (c : cmdline) (imgs : list image.Image)
  : image.Point :=
  if flagAutoResize c then
    match imgs with
    | img0 :: _ =>
        {| image.X := image.Dx (image.Bounds img0);
           image.Y := image.Dy (image.Bounds img0) |}
    | [] => image.ZP
    end
  else {| image.X := flagWidth c; image.Y := flagHeight c |}.

(** The window or its first buffer cannot be created. *)
Definition window_fails (s : Screen) (size : image.Point) : Prop :=
  is_Some (s_NewWindow s size) ∨ is_Some (s_NewBuffer s size).

(** All the ways in which the callback ends in [log.Fatal]. *)
Definition callback_fails (c : cmdline) (s : Screen)
    (imgs : list image.Image) (evs : list event) : Prop :=
  imgs = [] ∨ window_fails s (window_size_of c imgs) ∨ buffer_fails evs.

(** The width or the height given on the command line is zero. *)
Definition zero_size (c : cmdline) : Prop :=
  flagWidth c = 0 ∨ flagHeight c = 0.

#[global] Instance zero_size_dec c : Decision (zero_size c).
Proof. unfold zero_size. apply _. Defined.

(** What [init] logs before it exits. *)
Definition fatal_zero_size : list action :=
  [Log (LogMsg "The width and height must be non-zero values.")].

(** A profile is asked for and its file cannot be created. *)
Definition profile_fails (os : OS) (c : cmdline) : Prop :=
  flagProfile c ≠ EmptyString ∧ is_Some (os_Create os (flagProfile c)).

(** The slices that [main] gets from [decodeImages(findFiles(...))].
    What [decodeImages] returns is the same under every schedule, so the
    two slices are taken from the first-enabled one. *)
Definition main_files Join os (c : cmdline) : list string :=
  (findFiles Join os (Args c)).2.
Definition main_names Join basename os (c : cmdline) : list string :=
  (decodeImages basename os (main_files Join os c)).2.1.
Definition main_imgs Join basename os (c : cmdline) : list image.Image :=
  (decodeImages basename os (main_files Join os c)).2.2.

(** All the ways in which a run exits with a non-zero status. *)
Definition program_fails Join basename os (c : cmdline) (s : Screen)
    (evs : list event) : Prop :=
  zero_size c
  ∨ profile_fails os c
  ∨ Args c = []
  ∨ callback_fails c s (main_imgs Join basename os c) evs.

(** The names of the flags of the command line. *)
Definition flag_names : gset string :=
  {[ "v"; "width"; "height"; "auto-resize"; "increment"; "profile" ]}.

(** ** Invariant of the decoder

    What holds in every state that an interleaving of [decodeImages] can
    reach, and the measure that bounds its steps. *)

Section DecoderInvariant.

Variable basename : string → string.
Variable os : OS.
Variable files : list string.

(** The [go] statement of iteration [i] has run. *)
Definition spawned (m : mpc) (i : nat) : Prop :=
  match m with
  | MSpawn k => (i < k)%nat
  | _ => True
  end.

(** The receive from [imgChans[i]] has completed. *)
Definition collected (m : mpc) (i : nat) : Prop :=
  match m with
  | MSpawn _ => False
  | MCollect k _ _ => (i < k)%nat
  | MReturn _ _ => True
  end.

(** The log holds the line of the failure on [f]. *)
Definition logged_failure (log : list action) (f : string) : Prop :=
  ∃ l, failure_entry os f = Some l ∧ Log l ∈ log.

(** What is known of worker [i], on file [f], at program point [g], with
    its channel in state [c]. *)
Definition worker_ok (m : mpc) (log : list action) (i : nat) (f : string)
    (g : gpc) (c : chan_state) : Prop :=
  match g with
  | GUnborn => c = ChNil ∧ ¬ spawned m i
  | GOpen => c = ChOpen ∧ spawned m i ∧ ¬ collected m i
  | GOpenErr err =>
      c = ChOpen ∧ spawned m i ∧ ¬ collected m i ∧ os_Open os f = Some err
  | GDecode =>
      c = ChOpen ∧ spawned m i ∧ ¬ collected m i ∧ os_Open os f = None
  | GDecodeErr err =>
      c = ChOpen ∧ spawned m i ∧ ¬ collected m i
      ∧ os_Open os f = None ∧ image_Decode os f = inl err
  | GDecoded im kind =>
      c = ChOpen ∧ spawned m i ∧ ¬ collected m i
      ∧ os_Open os f = None ∧ image_Decode os f = inr (im, kind)
  | GClose =>
      c = ChOpen ∧ spawned m i ∧ ¬ collected m i ∧ logged_failure log f
  | GSend t =>
      c = ChOpen ∧ spawned m i ∧ ¬ collected m i
      ∧ name t = basename f
      ∧ ∃ kind, decode_result os f = Some (img t, kind)
  | GDone =>
      spawned m i
      ∧ ((c = ChClosed ∧ logged_failure log f)
         ∨ (c = ChOpen ∧ collected m i ∧ is_Some (decode_result os f)))
  end.

(** What is known of the caller: the pairs collected so far are those of
    the files already passed. *)
Definition main_ok (m : mpc) : Prop :=
  match m with
  | MSpawn k => (k ≤ length files)%nat
  | MCollect k names imgs =>
      (k ≤ length files)%nat
      ∧ names = (decoded basename os (take k files)).*1
      ∧ imgs = (decoded basename os (take k files)).*2
  | MReturn names imgs =>
      names = (decoded basename os files).*1
      ∧ imgs = (decoded basename os files).*2
  end.

(** The invariant: the slices keep their length, the caller and every
    worker are as described above. *)
Record inv (s : dstate) : Prop := {
  inv_chans : length (imgChans s) = length files;
  inv_gos : length (gos s) = length files;
  inv_main : main_ok (d_main s);
  inv_workers : ∀ i f g c,
    files !! i = Some f → gos s !! i = Some g → imgChans s !! i = Some c →
    worker_ok (d_main s) (d_log s) i f g c
}.

Local Open Scope nat_scope.

(** The number of steps a worker has left, at most. *)
Definition gweight (g : gpc) : nat :=
  match g with
  | GUnborn => 5
  | GOpen => 4
  | GDecode => 3
  | GOpenErr _ | GDecodeErr _ | GDecoded _ _ => 2
  | GClose | GSend _ => 1
  | GDone => 0
  end.

(** The number of steps the caller has left, at most. *)
Definition mweight (m : mpc) : nat :=
  match m with
  | MSpawn _ => length files + 2
  | MCollect k _ _ => length files - k + 1
  | MReturn _ _ => 0
  end.

(** The number of steps the whole system has left, at most. *)
Definition weight (s : dstate) : nat :=
  mweight (d_main s) + sum_list (gweight <$> gos s).

End DecoderInvariant.

(** ** A small world to run the program in *)

(** Two images, a view state on the second of them, and some input. *)
Definition two_images : list image.Image :=
  [ {| image.Bounds := {| image.Min := image.ZP;
                          image.Max := {| image.X := 4; image.Y := 3 |} |};
       image.Pix := 0 |};
    {| image.Bounds := {| image.Min := image.ZP;
                          image.Max := {| image.X := 8; image.Y := 6 |} |};
       image.Pix := 1 |} ].

Definition at_last_image : loop_state :=
  {| w := {| b := image.ZP; orig := {| image.X := 5; image.Y := -2 |};
             pan := false; mouse_ := image.ZP |};
     i := 1 |}.

Definition some_events : list event :=
  [ press key.CodeLeftArrow; EvPaint {| paint.External := false |};
    press key.CodeZ; press key.CodeRightArrow; press key.CodeRightArrow;
    EvSize {| size.WinSize := {| image.X := 8; image.Y := 6 |};
              size.NewBuffer := None |} ].

Definition a_drag : list mouse.Event :=
  [ {| mouse.X := 12; mouse.Y := 10; mouse.Button_ := mouse.ButtonNone;
       mouse.Direction_ := mouse.DirNone |};
    {| mouse.X := 7; mouse.Y := 31; mouse.Button_ := mouse.ButtonNone;
       mouse.Direction_ := mouse.DirNone |} ].

(** A schedule for two files that interleaves the two workers. *)
Definition a_schedule : list thread :=
  [Main; Go 0; Main; Go 1; Main; Go 0; Go 1; Go 0; Main; Go 1; Go 1;
   Main; Main].

(** Stand-ins for [filepath.Join] and [basename]. *)
Definition demo_Join (dir f : string) : string := dir +:+ "/" +:+ f.
Definition demo_basename (f : string) : string := f.

Definition demo_image (k : nat) : image.Image :=
  {| image.Bounds := {| image.Min := image.ZP;
                        image.Max := {| image.X := 40; image.Y := 30 |} |};
     image.Pix := k |}.

(** [missing] does not exist, [dir] is a directory with five entries,
    [locked.png] cannot be opened and [bad.png] is not an image. *)
Definition demo_os : OS := {|
  os_Stat f :=
    if decide (f = "missing") then StatErr "no such file or directory"
    else StatOk (bool_decide (f = "dir"));
  os_Open f :=
    if decide (f = "locked.png") then Some "permission denied"
    else if decide (f = "missing") then Some "no such file or directory"
    else None;
  os_Readdirnames f :=
    if decide (f = "dir") then ["a.png"; "README"; ".hidden"; "b."; "c.gif"]
    else [];
  image_Decode f :=
    if decide (f = "bad.png") then inl "image: unknown format"
    else inr (demo_image (String.length f), "png");
  os_Create f :=
    if decide (f = "/nowhere/cpu.prof") then Some "no such file or directory"
    else None;
  go_schedule := []
|}.

(** [sealed] is a directory that cannot be opened. *)
Definition sealed_os : OS := {|
  os_Stat f := StatOk (bool_decide (f = "sealed"));
  os_Open f := if decide (f = "sealed") then Some "permission denied" else None;
  os_Readdirnames f := ["a.png"];
  image_Decode f := inr (demo_image 0, "png");
  os_Create f := None;
  go_schedule := []
|}.

Definition demo_screen : Screen :=
  {| s_NewWindow _ := None; s_NewBuffer _ := None |}.

Definition demo_cmdline : cmdline :=
  {| flagVerbose := false; flagWidth := 600; flagHeight := 600;
     flagAutoResize := false; flagStepIncrement := 20;
     flagProfile := EmptyString; Args := ["x.png"; "y.gif"] |}.

(** [iview x.png missing dir y.gif] *)
Definition mixed_cmdline : cmdline :=
  {| flagVerbose := false; flagWidth := 600; flagHeight := 600;
     flagAutoResize := false; flagStepIncrement := 20;
     flagProfile := EmptyString;
     Args := ["x.png"; "missing"; "dir"; "y.gif"] |}.

(** [iview -width 0 x.png y.gif] *)
Definition zero_width_cmdline : cmdline :=
  {| flagVerbose := false; flagWidth := 0; flagHeight := 600;
     flagAutoResize := false; flagStepIncrement := 20;
     flagProfile := EmptyString; Args := ["x.png"; "y.gif"] |}.

(** [iview -profile /nowhere/cpu.prof] *)
Definition bad_profile_cmdline : cmdline :=
  {| flagVerbose := false; flagWidth := 600; flagHeight := 600;
     flagAutoResize := false; flagStepIncrement := 20;
     flagProfile := "/nowhere/cpu.prof"; Args := [] |}.

(** [iview] *)
Definition no_args_cmdline : cmdline :=
  {| flagVerbose := false; flagWidth := 600; flagHeight := 600;
     flagAutoResize := false; flagStepIncrement := 20;
     flagProfile := EmptyString; Args := [] |}.

(** * Vocabulary of the further properties *)

(** ** Sequences of events *)

(** A press of the right arrow ([true]) or of the left arrow. *)
Definition arrow_press (right : bool) : event :=
  press (if right then key.CodeRightArrow else key.CodeLeftArrow).

(** The number of right-arrow presses minus that of left-arrow presses. *)
Definition net_steps (arrows : list bool) : Z :=
  foldr (fun right acc => (if right : bool then 1 else -1) + acc) 0 arrows.

(** The event is a press of the left or of the right arrow. *)
Definition is_arrow_press (e : event) : Prop :=
  e = press key.CodeRightArrow ∨ e = press key.CodeLeftArrow.

(** The event is a mouse motion that arrives while the drag flag is set. *)
Definition is_drag_motion (st : loop_state) (e : event) : Prop :=
  ∃ m, e = EvMouse m ∧ is_motion m ∧ pan (w st) = true.

(** The release of the key Q. *)
Definition release_of_Q : key.Event :=
  {| key.Code_ := key.CodeQ; key.Direction_ := key.DirRelease |}.

(** ** Arguments and names *)

(** What one argument adds to the slice that [findFiles] returns. *)
Definition arg_files (Join : string → string → string) (os : OS)
    (f : string) : list string :=
  match os_Stat os f with
  | StatErr _ => []
  | StatOk true => dirImages Join os f
  | StatOk false => [f]
  end.

(** What [findFiles] logs for one argument. *)
Definition arg_log (os : OS) (f : string) : list action :=
  match os_Stat os f with
  | StatErr err => [Log (LogCantAccess f err)]
  | StatOk _ => []
  end.

(** The byte [c] occurs in the name [f]. *)
Definition occurs (c : ascii) (f : string) : Prop :=
  In c (list_ascii_of_string f).

(** ** The log and the steps of the decoder *)

(** The line that the worker of [fName] writes to the log. *)
Definition line_of (os : OS) (fName : string) : log_entry :=
  match os_Open os fName with
  | Some err => LogOpenErr err
  | None =>
      match image_Decode os fName with
      | inl err => LogDecodeErr fName err
      | inr (_, kind) => LogDecoded fName kind
      end
  end.

(** The worker is past its call to [log]. *)
Definition has_logged (g : gpc) : bool :=
  match g with
  | GClose | GSend _ | GDone => true
  | _ => false
  end.

(** The lines of the workers that are past their call to [log], in the
    order of the files. *)
Fixpoint logged_lines (os : OS) (fs : list string) (gs : list gpc)
  : list action :=
  match fs, gs with
  | f :: fs', g :: gs' =>
      (if has_logged g then [Log (line_of os f)] else [])
        ++ logged_lines os fs' gs'
  | _, _ => []
  end.

(** The number of steps of a schedule in which the thread named does
    move. *)
Fixpoint moves (basename : string → string) (os : OS)
    (imageFiles : list string) (sched : list thread) (s : dstate) : nat :=
  match sched with
  | [] => 0
  | t :: sched' =>
      match step basename os imageFiles t s with
      | Some s' => S (moves basename os imageFiles sched' s')
      | None => moves basename os imageFiles sched' s
      end
  end.

(** The log holds the lines of the workers that have logged, in some
    order. *)
Definition log_ok (os : OS) (files : list string) (s : dstate) : Prop :=
  d_log s ≡ₚ logged_lines os files (gos s).

(** ** The output of a run *)

(** What the workers of [decodeImages] log in a run, in the order in
    which the scheduler of the run lets them. *)
Definition decode_log (Join : string → string → string)
    (basename : string → string) (os : OS) (c : cmdline) : list action :=
  (decodeImages_under basename os (go_schedule os) (main_files Join os c)).1.

(** What a run writes before [driver.Main] starts: the profile set-up,
    the log of [findFiles] and the log of [decodeImages]. *)
Definition startup_output (Join : string → string → string)
    (basename : string → string) (os : OS) (c : cmdline) : list action :=
  (start_profile os c).1
    ++ (findFiles Join os (Args c)).1
    ++ decode_log Join basename os c.

(** The deferred calls, which run when the callback and then [main]
    return: [w.Release()], and [pprof.StopCPUProfile()] if a profile was
    started. *)
Definition deferred_calls (c : cmdline) : list action :=
  WRelease ::
  (if 0 <? Z.of_nat (String.length (flagProfile c)) then [StopCPUProfile]
   else []).

(** The action is a call on the window. *)
Definition is_window_call (a : action) : Prop :=
  match a with
  | WFill | WDisplay _ _ | WSendPaint | WResize _ | WRelease => True
  | _ => False
  end.

(** What the loop can write: a logged error, a line on standard output,
    a request to repaint or to resize, or the display of one of the
    images. *)
Definition loop_action (imgs : list image.Image) (a : action) : Prop :=
  match a with
  | Log (LogErr _) | Stdout _ | WSendPaint | WResize _ => True
  | WDisplay im _ => im ∈ imgs
  | _ => False
  end.

(** The command line with other values of the flags [width] and
    [height]. *)
Definition with_size (width height : Z) (c : cmdline) : cmdline :=
  {| flagVerbose := flagVerbose c; flagWidth := width; flagHeight := height;
     flagAutoResize := flagAutoResize c;
     flagStepIncrement := flagStepIncrement c;
     flagProfile := flagProfile c; Args := Args c |}.

(** The action is neither a call on the window nor the end of the
    profile. *)
Definition is_quiet (a : action) : Prop :=
  ¬ is_window_call a ∧ a ≠ StopCPUProfile.

(** What the callback can write before its deferred call: the first
    fill of the window, and what the loop can write. *)
Definition window_action (imgs : list image.Image) (a : action) : Prop :=
  a = WFill ∨ loop_action imgs a.

(** How a run ends, from how the loop ends. *)
Definition run_result (ctl : control) : unit + exit :=
  match ctl with
  | Next st => inr (Waiting st)
  | Return => inl tt
  | Fatal _ => inr (Exit 1)
  | IndexPanic => inr Panic
  end.

(** [iview missing bad.png locked.png]: nothing to show. *)
Definition nothing_cmdline : cmdline :=
  {| flagVerbose := false; flagWidth := 600; flagHeight := 600;
     flagAutoResize := false; flagStepIncrement := 20;
     flagProfile := EmptyString;
     Args := ["missing"; "bad.png"; "locked.png"] |}.

(** A scheduler that, once the two workers are started, runs the second
    one up to its line of the log before the first one moves. *)
Definition second_worker_first : list thread :=
  [Main; Main; Go 1; Go 1; Go 1].

(** The small world under that scheduler. *)
Definition racy_os : OS := {|
  os_Stat := os_Stat demo_os;
  os_Open := os_Open demo_os;
  os_Readdirnames := os_Readdirnames demo_os;
  image_Decode := image_Decode demo_os;
  os_Create := os_Create demo_os;
  go_schedule := second_worker_first
|}.

(** ** [display] (main.go, lines 269-284) *)

(** [image.Rect]: the rectangle with the given corners, put in order. *)
Definition image_Rect (x0 y0 x1 y1 : Z) : image.Rectangle :=
  {| image.Min := {| image.X := if x1 <? x0 then x1 else x0;
                     image.Y := if y1 <? y0 then y1 else y0 |};
     image.Max := {| image.X := if x1 <? x0 then x0 else x1;
                     image.Y := if y1 <? y0 then y0 else y1 |} |}.

(** [Rectangle.Empty] *)
Definition Rectangle_Empty (r : image.Rectangle) : bool :=
  (image.X (image.Max r) <=? image.X (image.Min r))
  || (image.Y (image.Max r) <=? image.Y (image.Min r)).

(** [Rectangle.In]: every point of [r] is in [s]. *)
Definition Rectangle_In (r s : image.Rectangle) : bool :=
  if Rectangle_Empty r then true
  else (image.X (image.Min s) <=? image.X (image.Min r))
       && (image.X (image.Max r) <=? image.X (image.Max s))
       && (image.Y (image.Min s) <=? image.Y (image.Min r))
       && (image.Y (image.Max r) <=? image.Y (image.Max s)).

(** [Point.Add] *)
Definition Point_Add (p q : image.Point) : image.Point :=
  {| image.X := int_add (image.X p) (image.X q);
     image.Y := int_add (image.Y p) (image.Y q) |}.

(** The calls that [display] makes on the window and its buffer. *)
Inductive toolkit_call :=
| CallFill (r : image.Rectangle)
    (* w.w.Fill(rect, bkgCol, draw.Src) *)
| CallDraw (dst : image.Rectangle) (im : image.Image) (sp : image.Point)
    (* draw.Draw(w.b.RGBA(), w.b.Bounds(), img, image.Point{}, draw.Src) *)
| CallUpload (dp : image.Point) (sr : image.Rectangle)
    (* w.w.Upload(dp, w.b, sr, w.w) *)
| CallPublish.
    (* w.w.Publish() *)

(** [w.display(img)], the calls behind the action [WDisplay]. [sz] is
    what [w.w.Size()] answers; [vpCenter] is a helper of the repository
    whose file is not part of the sources at hand, and a parameter
    here. The buffer has the bounds of its size. *)
Definition display (vpCenter : image.Image → Z → Z → image.Point)
    (sz : image.Point) (w0 : window) (im : image.Image)
  : list toolkit_call :=
  let rect := image_Rect 0 0 (image.X sz) (image.Y sz) in
  let dp := vpCenter im (image.X sz) (image.Y sz) in
  let sr := image.Bounds im in
  [ CallFill rect;
    CallDraw (image_Rect 0 0 (image.X (b w0)) (image.Y (b w0))) im image.ZP;
    CallUpload (Point_Add dp (orig w0))
      (if negb (Rectangle_In sr rect) then rect else sr);
    CallPublish ].

(** [iview -auto-resize x.png y.gif] *)
Definition auto_resize_cmdline : cmdline :=
  {| flagVerbose := false; flagWidth := 600; flagHeight := 600;
     flagAutoResize := true; flagStepIncrement := 20;
     flagProfile := EmptyString; Args := ["x.png"; "y.gif"] |}.

(** * Properties *)

(** ** Arithmetic on [int] *)

Lemma wrap_id z : in_int z → wrap z = z.
Proof.
  unfold in_int, wrap, int_min, int_max, int_bits. intros Hz.
  rewrite Z.mod_small; lia.
Qed.

Lemma wrap_in_int z : in_int (wrap z).
Proof.
  unfold in_int, wrap, int_min, int_max, int_bits.
  pose proof (Z.mod_pos_bound (z + 2 ^ (64 - 1)) (2 ^ 64)). lia.
Qed.

Lemma wrap_add_l a c : wrap (wrap a + c) = wrap (a + c).
Proof.
  unfold wrap, int_bits.
  replace ((a + 2 ^ (64 - 1)) mod 2 ^ 64 - 2 ^ (64 - 1) + c + 2 ^ (64 - 1))
    with ((a + 2 ^ (64 - 1)) mod 2 ^ 64 + c) by lia.
  rewrite Zplus_mod_idemp_l. f_equal. f_equal. lia.
Qed.

Lemma wrap_add_r a c : wrap (a + wrap c) = wrap (a + c).
Proof. rewrite (Z.add_comm a), wrap_add_l. f_equal. lia. Qed.

(** Adding a wrapped difference, then another, telescopes. *)
Lemma int_add_sub_telescope o p q r :
  int_add (int_add o (int_sub q p)) (int_sub r q) = int_add o (int_sub r p).
Proof.
  unfold int_add, int_sub.
  rewrite wrap_add_l, !wrap_add_r.
  replace (o + wrap (q - p) + (r - q)) with (o + (r - q) + wrap (q - p)) by lia.
  rewrite wrap_add_r. f_equal. lia.
Qed.

Lemma index_in_bounds {A} (s : list A) (k : Z) :
  0 <= k < len s → is_Some (index s k).
Proof.
  intros Hk. unfold index.
  destruct (Z.leb_spec 0 k); [|lia]. destruct (Z.ltb_spec k (len s)); [|lia].
  simpl. apply lookup_lt_is_Some. unfold len in *. lia.
Qed.

(** ** The event loop *)

Lemma int_max_value : int_max = 9223372036854775807.
Proof. reflexivity. Qed.

Lemma int_min_value : int_min = -9223372036854775808.
Proof. reflexivity. Qed.

Ltac int_bounds :=
  unfold index_ok, in_int in *; rewrite ?int_max_value, ?int_min_value in *.

Lemma right_arrow_index imgs st :
  0 < len imgs <= int_max → index_ok imgs st →
  handle imgs st (press key.CodeRightArrow)
  = ([WSendPaint],
     Next {| w := set_orig image.ZP (w st);
             i := if i st =? len imgs - 1 then 0 else i st + 1 |}).
Proof.
  intros Hn Hi. simpl. unfold on_key. simpl.
  unfold int_sub, int_add. rewrite (wrap_id (len imgs - 1)) by (int_bounds; lia).
  destruct (Z.eqb_spec (i st) (len imgs - 1)).
  - reflexivity.
  - rewrite wrap_id by (int_bounds; lia). reflexivity.
Qed.

Lemma left_arrow_index imgs st :
  0 < len imgs <= int_max → index_ok imgs st →
  handle imgs st (press key.CodeLeftArrow)
  = ([WSendPaint],
     Next {| w := set_orig image.ZP (w st);
             i := if i st =? 0 then len imgs - 1 else i st - 1 |}).
Proof.
  intros Hn Hi. simpl. unfold on_key. simpl.
  unfold int_sub.
  destruct (Z.eqb_spec (i st) 0);
    rewrite wrap_id by (int_bounds; lia); reflexivity.
Qed.

(** C2: with [n] images, [n > 0], a right-arrow press takes the index
    [n-1] to [0] and any other index [i] to [i+1]; a left-arrow press
    takes the index [0] to [n-1] and any other index [i] to [i-1]. *)
Theorem arrow_keys_wrap_around imgs st :
  0 < len imgs <= int_max → index_ok imgs st →
  (∃ st', (handle imgs st (press key.CodeRightArrow)).2 = Next st'
          ∧ i st' = if i st =? len imgs - 1 then 0 else i st + 1)
  ∧ (∃ st', (handle imgs st (press key.CodeLeftArrow)).2 = Next st'
            ∧ i st' = if i st =? 0 then len imgs - 1 else i st - 1).
Proof.
  intros Hn Hi. split.
  - rewrite right_arrow_index by done. eauto.
  - rewrite left_arrow_index by done. eauto.
Qed.

Lemma arrow_keys_wrap_around_witness :
  (∃ st', (handle two_images at_last_image (press key.CodeRightArrow)).2
          = Next st' ∧ i st' = 0)
  ∧ (∃ st', (handle two_images at_last_image (press key.CodeLeftArrow)).2
            = Next st' ∧ i st' = 0).
Proof.
  apply (arrow_keys_wrap_around two_images at_last_image).
  - vm_compute. split; [reflexivity | discriminate].
  - vm_compute. split; [discriminate | reflexivity].
Defined.

(** One iteration from a state whose index is in bounds: it never
    panics, and if the loop goes on the index is in bounds again. *)
Lemma handle_index_cases imgs st e :
  0 < len imgs <= int_max → index_ok imgs st →
  (handle imgs st e).2 = Return
  ∨ (∃ err, (handle imgs st e).2 = Fatal err)
  ∨ (∃ st', (handle imgs st e).2 = Next st' ∧ index_ok imgs st').
Proof.
  intros Hn Hi.
  destruct (index_in_bounds imgs (i st) Hi) as [im Him].
  destruct e as [m|k|p|z| |err|d]; simpl.
  - unfold on_mouse.
    destruct (mouse.Direction_ m); repeat case_decide;
      try destruct (pan (w st)); simpl; eauto.
  - destruct k as [code dir].
    destruct code, dir;
      try (unfold on_key; simpl; rewrite ?Him; simpl; by eauto).
    + pose proof (right_arrow_index imgs st Hn Hi) as E.
      unfold press in E; simpl in E. rewrite E. simpl.
      right; right. eexists; split; [done|].
      unfold index_ok in *; simpl. case_match; lia.
    + pose proof (left_arrow_index imgs st Hn Hi) as E.
      unfold press in E; simpl in E. rewrite E. simpl.
      right; right. eexists; split; [done|].
      unfold index_ok in *; simpl. case_match; lia.
  - unfold on_paint. destruct (paint.External p); rewrite ?Him; simpl; eauto.
  - unfold on_size. destruct (size.NewBuffer z); rewrite ?Him; simpl; eauto.
  - eauto.
  - eauto.
  - eauto.
Qed.

Lemma loop_cons imgs st e evs :
  loop imgs st (e :: evs)
  = match handle imgs st e with
    | (acts, Next st') =>
        let '(acts', c) := loop imgs st' evs in (acts ++ acts', c)
    | r => r
    end.
Proof. reflexivity. Qed.

Lemma loop_index_cases imgs evs : ∀ st,
  0 < len imgs <= int_max → index_ok imgs st →
  (loop imgs st evs).2 = Return
  ∨ (∃ err, (loop imgs st evs).2 = Fatal err)
  ∨ (∃ st', (loop imgs st evs).2 = Next st' ∧ index_ok imgs st').
Proof.
  induction evs as [|e evs IH]; intros st Hn Hi.
  - simpl. eauto.
  - rewrite loop_cons.
    destruct (handle_index_cases imgs st e Hn Hi) as [H|[[err H]|(st' & H & Hi')]];
      destruct (handle imgs st e) as [acts c]; simpl in H; subst c; eauto.
    specialize (IH st' Hn Hi').
    destruct (loop imgs st' evs) as [acts' c']; simpl in *. exact IH.
Qed.

(** C8: with [n > 0] images the index starts in [0, n) and is in [0, n)
    after any sequence of events, so that no [imgs[i]] of the loop is out
    of range. *)
Theorem index_always_in_bounds imgs winSize evs :
  0 < len imgs <= int_max →
  index_ok imgs (initial_state winSize)
  ∧ (loop imgs (initial_state winSize) evs).2 ≠ IndexPanic
  ∧ ∀ st', (loop imgs (initial_state winSize) evs).2 = Next st' →
           index_ok imgs st' ∧ is_Some (index imgs (i st')).
Proof.
  intros Hn.
  assert (Hi : index_ok imgs (initial_state winSize))
    by (unfold index_ok; simpl; lia).
  split; [exact Hi|].
  destruct (loop_index_cases imgs evs _ Hn Hi) as [H|[[err H]|(st1 & H & Hi1)]];
    rewrite H; split; try discriminate; intros st' [= <-].
  split; [done|]. by apply index_in_bounds.
Qed.

Lemma index_always_in_bounds_witness :
  index_ok two_images (initial_state image.ZP)
  ∧ (loop two_images (initial_state image.ZP) some_events).2 ≠ IndexPanic
  ∧ ∀ st', (loop two_images (initial_state image.ZP) some_events).2 = Next st' →
           index_ok two_images st' ∧ is_Some (index two_images (i st')).
Proof.
  apply (index_always_in_bounds two_images image.ZP some_events).
  vm_compute. split; [reflexivity | discriminate].
Defined.

(** C9: a press of the left or right arrow or of Z leaves the pan offset
    at (0,0); a press of R and a paint event leave the whole view state,
    the pan offset included, as it was. *)
Theorem pan_offset_reset_or_kept imgs st :
  0 < len imgs <= int_max → index_ok imgs st →
  (∀ c, c = key.CodeRightArrow ∨ c = key.CodeLeftArrow ∨ c = key.CodeZ →
        ∃ st', (handle imgs st (press c)).2 = Next st'
               ∧ orig (w st') = image.ZP)
  ∧ (handle imgs st (press key.CodeR)).2 = Next st
  ∧ (∀ e, (handle imgs st (EvPaint e)).2 = Next st).
Proof.
  intros Hn Hi.
  destruct (index_in_bounds imgs (i st) Hi) as [im Him].
  split; [|split].
  - intros c [->|[->| ->]].
    + rewrite right_arrow_index by done. eauto.
    + rewrite left_arrow_index by done. eauto.
    + simpl. unfold on_key. simpl. rewrite Him. simpl. eauto.
  - reflexivity.
  - intros e. simpl. unfold on_paint.
    destruct (paint.External e); rewrite ?Him; reflexivity.
Qed.

Lemma pan_offset_reset_or_kept_witness :
  (∀ c, c = key.CodeRightArrow ∨ c = key.CodeLeftArrow ∨ c = key.CodeZ →
        ∃ st', (handle two_images at_last_image (press c)).2 = Next st'
               ∧ orig (w st') = image.ZP)
  ∧ (handle two_images at_last_image (press key.CodeR)).2 = Next at_last_image
  ∧ (∀ e, (handle two_images at_last_image (EvPaint e)).2 = Next at_last_image).
Proof.
  apply (pan_offset_reset_or_kept two_images at_last_image).
  - vm_compute. split; [reflexivity | discriminate].
  - vm_compute. split; [discriminate | reflexivity].
Defined.

(** ** Dragging *)

Lemma moved_in_int o p q : point_in_int (moved o p q).
Proof. split; apply wrap_in_int. Qed.

Lemma moved_nowhere o p : point_in_int o → moved o p p = o.
Proof.
  intros [Hx Hy]. destruct o as [x y]. unfold moved, int_add, int_sub; simpl in *.
  rewrite !Z.sub_diag. rewrite (wrap_id 0) by (int_bounds; lia).
  rewrite !Z.add_0_r, !wrap_id by done. reflexivity.
Qed.

Lemma moved_twice o p q r : moved (moved o p q) q r = moved o p r.
Proof. unfold moved; simpl. by rewrite !int_add_sub_telescope. Qed.

Lemma motion_while_dragging imgs st e :
  is_motion e → pan (w st) = true →
  handle imgs st (EvMouse e)
  = ([WSendPaint],
     Next {| w := {| b := b (w st);
                     orig := moved (orig (w st)) (mouse_ (w st)) (pos_of e);
                     pan := true; mouse_ := pos_of e |};
             i := i st |}).
Proof.
  intros Hm Hp. simpl. unfold on_mouse. rewrite Hm, Hp.
  reflexivity.
Qed.

Lemma last_cons_default {A} (x d : A) l : List.last (x :: l) d = List.last l x.
Proof.
  revert x d. induction l as [|y l IH]; intros x d; [reflexivity|].
  change (List.last (x :: y :: l) d) with (List.last (y :: l) d).
  rewrite (IH y d), (IH y x). reflexivity.
Qed.

(** A run of motion events while the drag flag is set. *)
Lemma drag_run imgs es : ∀ st,
  Forall is_motion es → pan (w st) = true → point_in_int (orig (w st)) →
  ∃ acts st',
    loop imgs st (EvMouse <$> es) = (acts, Next st')
    ∧ orig (w st')
      = moved (orig (w st)) (mouse_ (w st))
          (List.last (pos_of <$> es) (mouse_ (w st)))
    ∧ mouse_ (w st') = List.last (pos_of <$> es) (mouse_ (w st))
    ∧ pan (w st') = true ∧ i st' = i st ∧ b (w st') = b (w st).
Proof.
  induction es as [|e es IH]; intros st Hes Hp Ho.
  - exists [], st. simpl. rewrite moved_nowhere by done. done.
  - apply Forall_cons in Hes as [He Hes].
    rewrite fmap_cons, loop_cons, (motion_while_dragging imgs st e He Hp).
    edestruct IH as (acts & st' & Hl & Hor & Hmo & Hpa & Hi & Hb);
      [exact Hes| | |rewrite Hl].
    + reflexivity.
    + apply moved_in_int.
    + eexists _, st'. split; [reflexivity|].
      rewrite fmap_cons, last_cons_default.
      rewrite Hor, Hmo, Hpa, Hi, Hb. simpl. rewrite moved_twice. done.
Qed.

(** C10: a left-button press sets the drag flag and records the
    position; while the flag is set a motion event adds the displacement
    from the recorded position to the pan offset and records the new
    position, so that after a press at [p0] and any motions the offset
    has moved by the displacement from [p0] to the last position; a
    motion with the flag clear changes nothing; a left-button release
    clears the flag and leaves the offset as it was. *)
Theorem drag_moves_pan_offset imgs st :
  point_in_int (orig (w st)) →
  (* press *)
  (∀ p, ∃ st', (handle imgs st (EvMouse (left_button mouse.DirPress p))).2
               = Next st'
               ∧ pan (w st') = true ∧ mouse_ (w st') = p
               ∧ orig (w st') = orig (w st) ∧ i st' = i st)
  (* release *)
  ∧ (∀ p, ∃ st', (handle imgs st (EvMouse (left_button mouse.DirRelease p))).2
                 = Next st'
                 ∧ pan (w st') = false ∧ orig (w st') = orig (w st)
                 ∧ i st' = i st)
  (* one motion *)
  ∧ (∀ e, is_motion e →
          if pan (w st) then
            ∃ st', (handle imgs st (EvMouse e)).2 = Next st'
                   ∧ orig (w st') = moved (orig (w st)) (mouse_ (w st)) (pos_of e)
                   ∧ mouse_ (w st') = pos_of e ∧ pan (w st') = true
                   ∧ i st' = i st
          else (handle imgs st (EvMouse e)).2 = Next st)
  (* a whole drag *)
  ∧ (∀ p0 es, Forall is_motion es →
       ∃ st', (loop imgs st (EvMouse <$> left_button mouse.DirPress p0 :: es)).2
              = Next st'
              ∧ orig (w st')
                = moved (orig (w st)) p0 (List.last (pos_of <$> es) p0)
              ∧ i st' = i st).
Proof.
  intros Ho. repeat split.
  - intros [x y]. eexists. simpl. unfold on_mouse; simpl. done.
  - intros [x y]. eexists. simpl. unfold on_mouse; simpl. done.
  - intros e He. destruct (pan (w st)) eqn:Hp.
    + rewrite (motion_while_dragging imgs st e He Hp). eexists; simpl. done.
    + simpl. unfold on_mouse. rewrite He, Hp. reflexivity.
  - intros [x0 y0] es Hes. rewrite fmap_cons, loop_cons.
    simpl handle. unfold on_mouse; simpl.
    edestruct (drag_run imgs es) as (acts & st' & Hl & Hor & _ & _ & Hi & _);
      [exact Hes| | |rewrite Hl].
    + reflexivity.
    + exact Ho.
    + exists st'. simpl in *. done.
Qed.

Lemma drag_moves_pan_offset_witness :
  ∃ st', (loop two_images at_last_image
            (EvMouse <$> left_button mouse.DirPress
                           {| image.X := 10; image.Y := 10 |} :: a_drag)).2
         = Next st'
         ∧ orig (w st') = {| image.X := 2; image.Y := 19 |}
         ∧ i st' = 1.
Proof.
  assert (H : point_in_int (orig (w at_last_image)))
    by (vm_compute; repeat split; discriminate).
  destruct (drag_moves_pan_offset two_images at_last_image H)
    as (_ & _ & _ & Hdrag).
  apply (Hdrag {| image.X := 10; image.Y := 10 |} a_drag).
  repeat constructor.
Defined.

(** ** Files and directories *)

Example Ext_last_dot : filepath.Ext "shots/x.tar.gz" = ".gz".
Proof. reflexivity. Qed.

Example Ext_no_dot : filepath.Ext "shots.d/README" = EmptyString.
Proof. reflexivity. Qed.

Example Ext_leading_dot : filepath.Ext ".hidden" = ".hidden".
Proof. reflexivity. Qed.

Section FileFacts.

Variable Join : string → string → string.
Variable os : OS.

Lemma dirImages_loop dir fs : ∀ files,
  fold_left
    (fun files f =>
       if decide (filepath.Ext f = EmptyString) then files
       else files ++ [Join dir f])
    fs files
  = files ++ (Join dir <$> filter has_ext fs).
Proof.
  induction fs as [|f fs IH]; intros files; simpl.
  - by rewrite app_nil_r.
  - rewrite IH. case_decide as Hf.
    + rewrite filter_cons_False; [done|]. unfold has_ext. tauto.
    + rewrite filter_cons_True by exact Hf.
      by rewrite fmap_cons, <- app_assoc.
Qed.


Lemma findFiles_loop args : ∀ acc,
  fold_left (findFiles_body Join os) args acc
  = (acc.1 ++ (findFiles Join os args).1, acc.2 ++ (findFiles Join os args).2).
Proof.
  unfold findFiles.
  induction args as [|f args IH]; intros [out files]; simpl.
  - by rewrite !app_nil_r.
  - rewrite IH. rewrite (IH (findFiles_body _ _ _ _)).
    unfold findFiles_body; simpl.
    destruct (os_Stat os f) as [err|[]]; simpl;
      by rewrite <- ?app_assoc.
Qed.

Lemma findFiles_app args1 args2 :
  findFiles Join os (args1 ++ args2)
  = ((findFiles Join os args1).1 ++ (findFiles Join os args2).1,
     (findFiles Join os args1).2 ++ (findFiles Join os args2).2).
Proof.
  unfold findFiles at 1. rewrite fold_left_app.
  fold (findFiles Join os args1). apply findFiles_loop.
Qed.

Lemma findFiles_cons f args :
  findFiles Join os (f :: args)
  = match os_Stat os f with
    | StatErr err =>
        (Log (LogCantAccess f err) :: (findFiles Join os args).1,
         (findFiles Join os args).2)
    | StatOk true =>
        ((findFiles Join os args).1,
         dirImages Join os f ++ (findFiles Join os args).2)
    | StatOk false =>
        ((findFiles Join os args).1, f :: (findFiles Join os args).2)
    end.
Proof.
  unfold findFiles at 1. simpl. rewrite findFiles_loop.
  unfold findFiles_body; simpl. by destruct (os_Stat os f) as [err|[]].
Qed.

Lemma findFiles_flat_map args :
  findFiles Join os args
  = (flat_map (arg_log os) args, flat_map (arg_files Join os) args).
Proof.
  induction args as [|f args IH]; [done|].
  rewrite findFiles_cons, IH. simpl. unfold arg_log, arg_files.
  by destruct (os_Stat os f) as [err|[]].
Qed.

End FileFacts.


(** ** The decoder: an invariant of every interleaving *)

Section DecodeFacts.

Variable basename : string → string.
Variable os : OS.
Variable files : list string.

Local Abbreviation n := (length files).
Local Abbreviation step_ := (step basename os files).
Local Abbreviation run_ := (run basename os files).
Local Abbreviation logged_failure := (logged_failure os).
Local Abbreviation worker_ok := (worker_ok basename os).
Local Abbreviation main_ok := (main_ok basename os files).
Local Abbreviation inv := (inv basename os files).
Local Abbreviation inv_chans := (inv_chans basename os files).
Local Abbreviation inv_workers := (inv_workers basename os files).
Local Abbreviation mweight := (mweight files).
Local Abbreviation weight := (weight files).

Lemma failure_no_result f l :
  failure_entry os f = Some l → decode_result os f = None.
Proof.
  unfold failure_entry, decode_result.
  destruct (os_Open os f); [done|]. by destruct (image_Decode os f).
Qed.

Lemma decoded_app l1 l2 :
  decoded basename os (l1 ++ l2)
  = decoded basename os l1 ++ decoded basename os l2.
Proof. unfold decoded. apply omap_app. Qed.

Lemma decoded_snoc_none l f :
  decode_result os f = None →
  decoded basename os (l ++ [f]) = decoded basename os l.
Proof.
  intros H. rewrite decoded_app. unfold decoded at 2. simpl.
  rewrite H. simpl. by rewrite app_nil_r.
Qed.

Lemma decoded_snoc_some l f r :
  decode_result os f = Some r →
  decoded basename os (l ++ [f]) = decoded basename os l ++ [(basename f, r.1)].
Proof.
  intros H. rewrite decoded_app. unfold decoded at 2. simpl.
  by rewrite H.
Qed.

Lemma worker_ok_log m log log' i f g c :
  worker_ok m log i f g c → worker_ok m (log ++ log') i f g c.
Proof.
  assert (Hl : logged_failure log f → logged_failure (log ++ log') f).
  { intros (l & ? & ?). exists l. split; [done|].
    apply elem_of_app. by left. }
  destruct g; simpl; intuition auto.
Qed.

Lemma inv_init : inv (d_init files).
Proof.
  split; simpl.
  - apply length_replicate.
  - apply length_replicate.
  - lia.
  - intros i f g c _ Hg Hc.
    apply lookup_replicate in Hg as [-> _].
    apply lookup_replicate in Hc as [-> _].
    simpl. split; [done|lia].
Qed.

Lemma worker_ok_main m m' log i f g c :
  (spawned m i ↔ spawned m' i) → (collected m i ↔ collected m' i) →
  worker_ok m log i f g c → worker_ok m' log i f g c.
Proof. intros Hs Hc. destruct g; simpl; intuition auto. Qed.

(** A step of worker [i] that leaves the caller where it is. *)
Lemma inv_worker_step s s' i f g' c' log' :
  inv s → files !! i = Some f →
  d_main s' = d_main s →
  gos s' = <[i:=g']> (gos s) →
  imgChans s' = <[i:=c']> (imgChans s) →
  d_log s' = d_log s ++ log' →
  worker_ok (d_main s) (d_log s') i f g' c' →
  inv s'.
Proof.
  intros [Hlc Hlg Hm Hw] Hf Em Eg Ec El Hnew.
  assert (Hi : (i < n)%nat) by (by eapply lookup_lt_Some).
  split.
  - by rewrite Ec, length_insert.
  - by rewrite Eg, length_insert.
  - by rewrite Em.
  - intros j fj g c Hfj Hg Hc. rewrite Em.
    rewrite Eg in Hg. rewrite Ec in Hc.
    destruct (decide (i = j)) as [<-|Hne].
    + rewrite list_lookup_insert_eq in Hg by lia.
      rewrite list_lookup_insert_eq in Hc by lia.
      by simplify_eq.
    + rewrite list_lookup_insert_ne in Hg by done.
      rewrite list_lookup_insert_ne in Hc by done.
      rewrite El. apply worker_ok_log. by apply Hw.
Qed.

Lemma step_go_inv i s s' : inv s → step_go basename os files i s = Some s' → inv s'.
Proof.
  intros Hinv Hstep. unfold step_go in Hstep.
  destruct (files !! i) as [f|] eqn:Hf; [|done].
  destruct (gos s !! i) as [g|] eqn:Hg; [|done].
  assert (Hi : (i < n)%nat) by (by eapply lookup_lt_Some).
  destruct (lookup_lt_is_Some_2 (imgChans s) i) as [c Hc];
    [by rewrite (inv_chans s Hinv)|].
  pose proof (inv_workers s Hinv i f g c Hf Hg Hc) as Hw.
  assert (Hid : imgChans s = <[i:=c]> (imgChans s))
    by (by rewrite list_insert_id).
  destruct g; simplify_eq; simpl in Hw.
  - (* os.Open *)
    eapply (inv_worker_step s _ i f _ c []);
      [exact Hinv|exact Hf|reflexivity|reflexivity|exact Hid
      |simpl; by rewrite app_nil_r|].
    simpl. destruct (os_Open os f) eqn:Ho; simpl; intuition auto.
  - (* log.Println(err) *)
    eapply (inv_worker_step s _ i f _ c [Log (LogOpenErr err)]);
      [exact Hinv|exact Hf|reflexivity|reflexivity|exact Hid|reflexivity|].
    simpl. destruct Hw as (? & ? & ? & Ho). repeat split; try done.
    exists (LogOpenErr err). split; [|apply elem_of_app; right; by left].
    unfold failure_entry. by rewrite Ho.
  - (* image.Decode *)
    eapply (inv_worker_step s _ i f _ c []);
      [exact Hinv|exact Hf|reflexivity|reflexivity|exact Hid
      |simpl; by rewrite app_nil_r|].
    simpl. destruct (image_Decode os f) as [err|[im kind]] eqn:Hd; simpl;
      intuition auto.
  - (* log.Printf("Could not decode ...") *)
    eapply (inv_worker_step s _ i f _ c [Log (LogDecodeErr f err)]);
      [exact Hinv|exact Hf|reflexivity|reflexivity|exact Hid|reflexivity|].
    simpl. destruct Hw as (? & ? & ? & Ho & Hd). repeat split; try done.
    exists (LogDecodeErr f err). split; [|apply elem_of_app; right; by left].
    unfold failure_entry. by rewrite Ho, Hd.
  - (* log.Printf("Decoded ...") *)
    eapply (inv_worker_step s _ i f _ c [Log (LogDecoded f kind)]);
      [exact Hinv|exact Hf|reflexivity|reflexivity|exact Hid|reflexivity|].
    simpl. destruct Hw as (? & ? & ? & Ho & Hd). repeat split; try done.
    exists kind. unfold decode_result. by rewrite Ho, Hd.
  - (* close(imgChans[i]) *)
    eapply (inv_worker_step s _ i f GDone ChClosed []);
      [exact Hinv|exact Hf|reflexivity|reflexivity|reflexivity
      |simpl; by rewrite app_nil_r|].
    simpl. intuition auto.
Qed.

Lemma take_all_files k : (n ≤ k)%nat → take k files = files.
Proof. intros. by apply take_ge. Qed.

Lemma step_main_inv s s' : inv s → step_main files s = Some s' → inv s'.
Proof.
  intros Hinv Hstep. pose proof Hinv as [Hlc Hlg Hm Hw].
  unfold step_main in Hstep.
  destruct (d_main s) as [k|k names imgs|names imgs] eqn:Em; [| |done].
  - (* first loop *)
    simpl in Hm. destruct (files !! k) as [f|] eqn:Hf; simplify_eq.
    + assert (Hk : (k < n)%nat) by (by eapply lookup_lt_Some).
      split; simpl; rewrite ?length_insert; try done.
      intros j fj g c Hfj Hg Hc.
      destruct (decide (k = j)) as [<-|Hne].
      * rewrite list_lookup_insert_eq in Hg by lia.
        rewrite list_lookup_insert_eq in Hc by lia.
        simplify_eq. simpl. split; [done|]. split; [lia|tauto].
      * rewrite list_lookup_insert_ne in Hg by done.
        rewrite list_lookup_insert_ne in Hc by done.
        eapply worker_ok_main; [| |by apply Hw]; simpl; [lia|tauto].
    + apply lookup_ge_None in Hf.
      split; simpl; try done.
      * split; [lia|done].
      * intros j fj g c Hfj Hg Hc.
        assert (Hj : (j < n)%nat) by (by eapply lookup_lt_Some).
        eapply worker_ok_main; [| |by apply Hw]; simpl; [|lia].
        split; [done|lia].
  - (* second loop *)
    simpl in Hm. destruct Hm as (Hk & Hnames & Himgs).
    destruct (imgChans s !! k) as [c|] eqn:Hc.
    + assert (Hkn : (k < n)%nat)
        by (rewrite <- Hlc; by eapply lookup_lt_Some).
      destruct (lookup_lt_is_Some_2 files k Hkn) as [f Hf].
      destruct (lookup_lt_is_Some_2 (gos s) k) as [g Hg]; [lia|].
      pose proof (Hw k f g c Hf Hg Hc) as Hwk. rewrite Hg in Hstep.
      assert (Hothers : ∀ names' imgs' j fj gj cj,
                j ≠ k → files !! j = Some fj → gos s !! j = Some gj →
                imgChans s !! j = Some cj →
                worker_ok (MCollect (S k) names' imgs') (d_log s) j fj gj cj).
      { intros names' imgs' j fj gj cj Hne Hfj Hgj Hcj.
        eapply worker_ok_main; [| |by apply Hw]; simpl; [done|lia]. }
      destruct c; [done| |].
      * (* open: the rendezvous *)
        destruct g; simplify_eq. simpl in Hwk.
        destruct Hwk as (_ & _ & _ & Hname & kind & Hres).
        split; simpl; rewrite ?length_insert; try done.
        -- split; [lia|].
           rewrite (take_S_r _ _ _ Hf), (decoded_snoc_some _ _ _ Hres).
           rewrite !fmap_app. simpl. by rewrite Hname.
        -- intros j fj gj cj Hfj Hgj Hcj.
           destruct (decide (k = j)) as [<-|Hne].
           ++ rewrite list_lookup_insert_eq in Hgj by lia. simplify_eq.
              simpl. split; [done|]. right. split; [done|].
              split; [lia|]. by rewrite Hres.
           ++ rewrite list_lookup_insert_ne in Hgj by done.
              by apply Hothers.
      * (* closed *)
        simplify_eq.
        assert (Hfail : g = GDone ∧ logged_failure (d_log s) f).
        { destruct g; simpl in Hwk; try (by destruct Hwk as [? _]).
          destruct Hwk as [_ [[_ ?]|[? _]]]; done. }
        destruct Hfail as [-> (l & Hl & Hin)].
        split; simpl; try done.
        -- split; [lia|].
           rewrite (take_S_r _ _ _ Hf).
           by rewrite (decoded_snoc_none _ _ (failure_no_result _ _ Hl)).
        -- intros j fj gj cj Hfj Hgj Hcj.
           destruct (decide (k = j)) as [<-|Hne]; [|by apply Hothers].
           simplify_eq. simpl. split; [done|]. left. split; [done|].
           by exists l.
    + (* all channels read *)
      apply lookup_ge_None in Hc. simplify_eq.
      split; simpl; try done.
      * by rewrite !take_all_files by lia.
      * intros j fj g c Hfj Hg Hc'.
        assert (Hj : (j < n)%nat) by (by eapply lookup_lt_Some).
        eapply worker_ok_main; [| |by apply Hw]; simpl; [done|].
        split; [done|lia].
Qed.

Lemma step_inv t s s' : inv s → step_ t s = Some s' → inv s'.
Proof.
  destruct t; simpl; [apply step_main_inv|apply step_go_inv].
Qed.

Lemma run_inv sched : ∀ s, inv s → inv (run_ sched s).
Proof.
  induction sched as [|t sched IH]; intros s Hs; [done|]. simpl.
  apply IH. destruct (step_ t s) as [s'|] eqn:E; simpl; [|done].
  by eapply step_inv.
Qed.

(** *** No deadlock, and termination *)

Local Open Scope nat_scope.

Lemma sum_list_insert (l : list nat) i x y :
  l !! i = Some x → sum_list (<[i:=y]> l) + x = sum_list l + y.
Proof.
  revert i. induction l as [|a l IH]; intros [|i] H; simplify_eq/=; [lia|].
  specialize (IH i H). lia.
Qed.

Lemma weight_insert (gs : list gpc) i g g' :
  gs !! i = Some g →
  sum_list (gweight <$> <[i:=g']> gs) + gweight g
  = sum_list (gweight <$> gs) + gweight g'.
Proof.
  intros H. rewrite list_fmap_insert. apply sum_list_insert.
  by rewrite list_lookup_fmap, H.
Qed.

Lemma weight_init : weight (d_init files) = 6 * n + 2.
Proof.
  unfold weight, d_init; simpl.
  assert (E : ∀ k, sum_list (gweight <$> replicate k GUnborn) = 5 * k).
  { induction k as [|k IH]; [done|].
    change (5 + sum_list (gweight <$> replicate k GUnborn) = 5 * S k). lia. }
  rewrite E. lia.
Qed.

(** Every step uses up some of the weight. *)
Lemma step_weight t s s' :
  inv s → step_ t s = Some s' → weight s' < weight s.
Proof.
  intros Hinv Hstep. pose proof Hinv as [Hlc Hlg Hm Hw].
  destruct t as [|i]; simpl in Hstep.
  - unfold step_main in Hstep. unfold weight.
    destruct (d_main s) as [k|k names imgs|names imgs] eqn:Em; [| |done].
    + destruct (files !! k) as [f|] eqn:Hf; simplify_eq; simpl; [|lia].
      assert (Hk : (k < n)%nat) by (by eapply lookup_lt_Some).
      destruct (lookup_lt_is_Some_2 (gos s) k) as [g Hg]; [lia|].
      destruct (lookup_lt_is_Some_2 (imgChans s) k) as [c Hc]; [lia|].
      pose proof (Hw k f g c Hf Hg Hc) as Hwk.
      assert (g = GUnborn) as ->.
      { destruct g; simpl in Hwk; [done|..];
          try (destruct Hwk as (_ & ? & _); lia); destruct Hwk as [? _]; lia. }
      pose proof (weight_insert _ _ _ GOpen Hg). simpl in *. lia.
    + destruct (imgChans s !! k) as [c|] eqn:Hc; simplify_eq; simpl; [|lia].
      assert (Hkn : (k < n)%nat)
        by (rewrite <- Hlc; by eapply lookup_lt_Some).
      destruct c; [done| |simplify_eq; simpl; lia].
      destruct (gos s !! k) as [g|] eqn:Hg; [|done].
      destruct g; simplify_eq; simpl.
      pose proof (weight_insert _ _ _ GDone Hg). simpl in *. lia.
  - unfold step_go in Hstep. unfold weight.
    destruct (files !! i) as [f|] eqn:Hf; [|done].
    destruct (gos s !! i) as [g|] eqn:Hg; [|done].
    destruct g; simplify_eq; simpl;
      match goal with
      | |- context [<[i:=?g']> (gos s)] =>
          pose proof (weight_insert _ _ _ g' Hg) as E
      end; simpl in E; repeat case_match; simpl in *; lia.
Qed.

(** Until the caller has returned, some thread can move. *)
Lemma progress s :
  inv s → (∀ names imgs, d_main s ≠ MReturn names imgs) →
  ∃ t, t ∈ threads n ∧ is_Some (step_ t s).
Proof.
  intros [Hlc Hlg Hm Hw] Hrun.
  assert (HMain : Main ∈ threads n) by (unfold threads; by left).
  destruct (d_main s) as [k|k names imgs|names imgs] eqn:Em.
  - exists Main. split; [done|]. simpl. unfold step_main. rewrite Em.
    destruct (files !! k); eauto.
  - destruct (imgChans s !! k) as [c|] eqn:Hc.
    + assert (Hkn : (k < n)%nat)
        by (rewrite <- Hlc; by eapply lookup_lt_Some).
      destruct (lookup_lt_is_Some_2 files k Hkn) as [f Hf].
      destruct (lookup_lt_is_Some_2 (gos s) k) as [g Hg]; [lia|].
      pose proof (Hw k f g c Hf Hg Hc) as Hwk.
      assert (HGo : Go k ∈ threads n).
      { unfold threads. apply list_elem_of_further, list_elem_of_fmap.
        exists k. split; [done|]. apply elem_of_seq. lia. }
      destruct g; simpl in Hwk;
        try (exists (Go k); split; [done|]; simpl; unfold step_go;
             rewrite Hf, Hg; by eauto).
      * destruct Hwk as [_ []]. done.
      * exists Main. split; [done|]. simpl. unfold step_main.
        destruct Hwk as (-> & _). rewrite Em, Hc, Hg. eauto.
      * exists Main. split; [done|]. simpl. unfold step_main.
        destruct Hwk as [_ [[-> _]|(_ & ? & _)]]; [|lia].
        rewrite Em, Hc. eauto.
    + exists Main. split; [done|]. simpl. unfold step_main.
      rewrite Em, Hc. eauto.
  - by destruct (Hrun names imgs).
Qed.

Lemma first_enabled_Some ts s :
  (∃ t, t ∈ ts ∧ is_Some (step_ t s)) →
  ∃ t s', step_ t s = Some s'
          ∧ first_enabled basename os files ts s = Some s'.
Proof.
  induction ts as [|t0 ts IH]; intros (t & Hin & Hs).
  - by apply elem_of_nil in Hin.
  - simpl. destruct (step_ t0 s) as [s0|] eqn:E0; [by eauto|].
    apply IH. exists t. split; [|done].
    apply elem_of_cons in Hin as [->|]; [|done].
    rewrite E0 in Hs. by destruct Hs.
Qed.

Lemma first_enabled_step ts s s' :
  first_enabled basename os files ts s = Some s' → ∃ t, step_ t s = Some s'.
Proof.
  induction ts as [|t0 ts IH]; simpl; [done|].
  destruct (step_ t0 s) as [s0|] eqn:E0; [|done].
  intros [= <-]. eauto.
Qed.

Lemma run_first_S fuel s :
  run_first basename os files (S fuel) s
  = match first_enabled basename os files (threads n) s with
    | Some s' => run_first basename os files fuel s'
    | None => s
    end.
Proof. reflexivity. Qed.

(** With fuel for the whole weight, the first-enabled schedule runs the
    caller to its [return]. *)
Lemma run_first_returns fuel : ∀ s,
  inv s → weight s ≤ fuel →
  inv (run_first basename os files fuel s)
  ∧ ∃ names imgs,
      d_main (run_first basename os files fuel s) = MReturn names imgs.
Proof.
  induction fuel as [|fuel IH]; intros s Hinv Hw.
  - simpl. split; [done|].
    destruct (d_main s) as [k|k names imgs|names imgs] eqn:Em; [| |by eauto];
      unfold weight in Hw; rewrite Em in Hw; simpl in Hw; lia.
  - rewrite run_first_S.
    destruct (first_enabled basename os files (threads n) s) as [s'|] eqn:E.
    + destruct (first_enabled_step _ _ _ E) as [t Ht].
      apply IH; [by eapply step_inv|].
      pose proof (step_weight t s s' Hinv Ht). lia.
    + split; [done|].
      destruct (d_main s) as [k|k names imgs|names imgs] eqn:Em; [| |by eauto].
      * destruct (first_enabled_Some (threads n) s) as (t & s' & _ & E').
        { apply progress; [done|]. intros ??. by rewrite Em. }
        by rewrite E in E'.
      * destruct (first_enabled_Some (threads n) s) as (t & s' & _ & E').
        { apply progress; [done|]. intros ??. by rewrite Em. }
        by rewrite E in E'.
Qed.

(** *** At the [return] *)

Lemma returned_result s names imgs :
  inv s → d_main s = MReturn names imgs →
  names = (decoded basename os files).*1
  ∧ imgs = (decoded basename os files).*2.
Proof. intros [_ _ Hm _] Em. by rewrite Em in Hm. Qed.

Lemma returned_logged s names imgs f l :
  inv s → d_main s = MReturn names imgs →
  f ∈ files → failure_entry os f = Some l → Log l ∈ d_log s.
Proof.
  intros [Hlc Hlg _ Hw] Em Hf Hl.
  apply list_elem_of_lookup in Hf as [i Hf].
  assert (Hi : i < n) by (by eapply lookup_lt_Some).
  destruct (lookup_lt_is_Some_2 (gos s) i) as [g Hg]; [lia|].
  destruct (lookup_lt_is_Some_2 (imgChans s) i) as [c Hc]; [lia|].
  pose proof (Hw i f g c Hf Hg Hc) as Hwi. rewrite Em in Hwi.
  destruct g; simpl in Hwi; try (by intuition auto).
  destruct Hwi as [_ [[_ (l' & Hl' & Hin)]|(_ & _ & Hres)]].
  - by simplify_eq.
  - rewrite (failure_no_result _ _ Hl) in Hres. by destruct Hres.
Qed.

Lemma decodeImages_run_first :
  ∃ s, inv s
       ∧ d_main s = MReturn (decodeImages basename os files).2.1
                      (decodeImages basename os files).2.2
       ∧ d_log s = (decodeImages basename os files).1.
Proof.
  unfold decodeImages.
  destruct (run_first_returns (6 * n + 2) (d_init files)) as (Hinv & names & imgs & Em).
  - apply inv_init.
  - by rewrite weight_init.
  - eexists. split; [exact Hinv|]. by rewrite Em.
Qed.

End DecodeFacts.

(** ** The decoder: what it returns *)

Lemma decoded_cons basename os f files :
  decoded basename os (f :: files)
  = match decode_result os f with
    | Some r => (basename f, r.1) :: decoded basename os files
    | None => decoded basename os files
    end.
Proof. unfold decoded. simpl. by destruct (decode_result os f). Qed.

Lemma decoded_names basename os files :
  (decoded basename os files).*1 = basename <$> filter (decodes os) files.
Proof.
  induction files as [|f files IH]; [done|].
  rewrite decoded_cons.
  destruct (decode_result os f) as [r|] eqn:E.
  - rewrite filter_cons_True by (unfold decodes; rewrite E; eauto).
    rewrite !fmap_cons, IH. done.
  - rewrite filter_cons_False; [done|].
    unfold decodes. rewrite E. by intros [].
Qed.

Lemma decoded_imgs basename os files :
  Forall2 (fun f im => ∃ kind, decode_result os f = Some (im, kind))
    (filter (decodes os) files) (decoded basename os files).*2.
Proof.
  induction files as [|f files IH]; [constructor|].
  rewrite decoded_cons.
  destruct (decode_result os f) as [[im kind]|] eqn:E.
  - rewrite filter_cons_True by (unfold decodes; rewrite E; eauto).
    rewrite fmap_cons. constructor; eauto.
  - rewrite filter_cons_False; [done|].
    unfold decodes. rewrite E. by intros [].
Qed.

Lemma length_filter_split {A} (P : A → Prop) `{!∀ x, Decision (P x)}
    (l : list A) :
  length l = (length (filter P l) + length (filter (fun x => ¬ P x) l))%nat.
Proof.
  induction l as [|x l IH]; [done|].
  destruct (decide (P x)) as [Hx|Hx].
  - rewrite filter_cons_True, (filter_cons_False (fun x => ¬ P x)) by tauto.
    simpl. lia.
  - rewrite filter_cons_False, (filter_cons_True (fun x => ¬ P x)) by tauto.
    simpl. lia.
Qed.

Lemma no_result_failure os f :
  decode_result os f = None → is_Some (failure_entry os f).
Proof.
  unfold decode_result, failure_entry.
  destruct (os_Open os f); [eauto|].
  destruct (image_Decode os f); [eauto|done].
Qed.

(** C1: of the files given, with [N] that decode and [M] that do not,
    [decodeImages] returns the names and the images of the [N] that
    decode, in the order given, and nothing for the others. It does so
    under the first-enabled schedule; under any other schedule the caller
    can only return these same slices, and until it has returned some
    thread can always move. *)
Theorem decodeImages_keeps_decodable_in_order basename os files :
  let ok := filter (decodes os) files in
  let bad := filter (fun f => ¬ decodes os f) files in
  let names := (decodeImages basename os files).2.1 in
  let imgs := (decodeImages basename os files).2.2 in
  names = basename <$> ok
  ∧ Forall2 (fun f im => ∃ kind, decode_result os f = Some (im, kind)) ok imgs
  ∧ length names = length ok ∧ length imgs = length ok
  ∧ length files = (length ok + length bad)%nat
  ∧ (∀ sched names' imgs',
       d_main (run basename os files sched (d_init files))
       = MReturn names' imgs' →
       names' = names ∧ imgs' = imgs)
  ∧ (∀ sched,
       let s := run basename os files sched (d_init files) in
       (∃ names' imgs', d_main s = MReturn names' imgs')
       ∨ ∃ t, is_Some (step basename os files t s)).
Proof.
  intros ok bad names imgs.
  destruct (decodeImages_run_first basename os files) as (s0 & Hinv0 & Em0 & _).
  destruct (returned_result _ _ _ _ _ _ Hinv0 Em0) as [Hn Hi].
  fold names in Hn. fold imgs in Hi.
  assert (En : names = basename <$> ok) by (by rewrite Hn, decoded_names).
  split; [exact En|].
  split; [rewrite Hi; apply decoded_imgs|].
  split; [by rewrite En, length_fmap|].
  split.
  { rewrite Hi. symmetry. eapply Forall2_length, decoded_imgs. }
  split; [apply length_filter_split|].
  split.
  - intros sched names' imgs' Em.
    pose proof (run_inv basename os files sched _ (inv_init _ _ files)) as Hinv.
    destruct (returned_result _ _ _ _ _ _ Hinv Em) as [-> ->]. done.
  - intros sched s.
    pose proof (run_inv basename os files sched _ (inv_init _ _ files)) as Hinv.
    fold s in Hinv.
    destruct (d_main s) as [k|k names' imgs'|names' imgs'] eqn:Em;
      [right|right|left; by eauto];
      (destruct (progress basename os files s Hinv) as (t & _ & Ht);
       [intros ??; by rewrite Em|by eauto]).
Qed.

Lemma decodeImages_keeps_decodable_in_order_witness :
  (decodeImages demo_basename demo_os ["x.png"; "bad.png"]).2.1 = ["x.png"]
  ∧ (run demo_basename demo_os ["x.png"; "bad.png"] a_schedule
       (d_init ["x.png"; "bad.png"])).(d_main)
    = MReturn ["x.png"] [demo_image 5].
Proof.
  destruct (decodeImages_keeps_decodable_in_order demo_basename demo_os
              ["x.png"; "bad.png"]) as (E & _ & _ & _ & _ & Hany & _).
  split; [exact E|].
  destruct (Hany a_schedule ["x.png"] [demo_image 5] eq_refl) as [_ _].
  reflexivity.
Defined.

Lemma decodeImages_decoded basename os files :
  (decodeImages basename os files).2.1 = (decoded basename os files).*1
  ∧ (decodeImages basename os files).2.2 = (decoded basename os files).*2.
Proof.
  destruct (decodeImages_run_first basename os files) as (s0 & Hinv0 & Em0 & _).
  exact (returned_result _ _ _ _ _ _ Hinv0 Em0).
Qed.

(** *** Under a schedule *)

Lemma run_weight basename os files sched : ∀ s,
  inv basename os files s →
  (weight files (run basename os files sched s) ≤ weight files s)%nat.
Proof.
  induction sched as [|t sched IH]; intros s Hinv; simpl; [lia|].
  destruct (step basename os files t s) as [s'|] eqn:E; simpl; [|by apply IH].
  pose proof (step_weight _ _ _ t s s' Hinv E).
  pose proof (IH s' (step_inv _ _ _ t s s' Hinv E)). lia.
Qed.

Lemma decodeImages_under_returns basename os sched files :
  ∃ s, inv basename os files s
       ∧ d_main s = MReturn (decodeImages_under basename os sched files).2.1
                      (decodeImages_under basename os sched files).2.2
       ∧ d_log s = (decodeImages_under basename os sched files).1
       ∧ s = run_first basename os files (6 * length files + 2)
               (run basename os files sched (d_init files)).
Proof.
  unfold decodeImages_under.
  pose proof (run_inv basename os files sched _ (inv_init _ _ files)) as Hinv.
  destruct (run_first_returns basename os files (6 * length files + 2)
              (run basename os files sched (d_init files)))
    as (Hinv' & names & imgs & Em); [done| |].
  { rewrite <- (weight_init files). apply run_weight, inv_init. }
  eexists. split; [exact Hinv'|]. by rewrite Em.
Qed.

(** What [decodeImages] returns does not depend on the schedule. *)
Lemma decodeImages_under_result basename os sched files :
  (decodeImages_under basename os sched files).2
  = (decodeImages basename os files).2.
Proof.
  destruct (decodeImages_under_returns basename os sched files)
    as (s & Hinv & Em & _).
  destruct (returned_result _ _ _ _ _ _ Hinv Em) as [E1 E2].
  destruct (decodeImages_decoded basename os files) as [D1 D2].
  destruct (decodeImages_under _ _ _ _).2, (decodeImages _ _ _).2.
  simpl in *. congruence.
Qed.

Lemma decoded_skip basename os pre f post :
  ¬ decodes os f →
  decoded basename os (pre ++ f :: post)
  = decoded basename os pre ++ decoded basename os post.
Proof.
  intros Hf. rewrite decoded_app, decoded_cons.
  destruct (decode_result os f) eqn:E; [|done].
  destruct Hf. unfold decodes. rewrite E. eauto.
Qed.

(** C6: a failure on one file is logged and skips that file only.
    [findFiles] on an argument whose [os.Stat] fails logs the failure,
    adds no file and goes on with the arguments that follow.
    [decodeImages] on a file that cannot be opened or decoded logs the
    failure, returns no image for it and returns those of the other
    files, under every schedule. Neither exits. *)
Theorem per_file_failures_are_skipped Join basename os pre f post :
  (∀ err, os_Stat os f = StatErr err →
     (findFiles Join os (pre ++ f :: post)).2
     = (findFiles Join os pre).2 ++ (findFiles Join os post).2
     ∧ (findFiles Join os (pre ++ f :: post)).1
       = (findFiles Join os pre).1
           ++ Log (LogCantAccess f err) :: (findFiles Join os post).1)
  ∧ (¬ decodes os f →
     let r := decodeImages basename os (pre ++ f :: post) in
     r.2.1 = (decodeImages basename os pre).2.1
               ++ (decodeImages basename os post).2.1
     ∧ r.2.2 = (decodeImages basename os pre).2.2
                 ++ (decodeImages basename os post).2.2
     ∧ (∃ l, failure_entry os f = Some l ∧ Log l ∈ r.1)
     ∧ ∀ sched names imgs,
         let s := run basename os (pre ++ f :: post) sched
                    (d_init (pre ++ f :: post)) in
         d_main s = MReturn names imgs →
         names = r.2.1 ∧ imgs = r.2.2
         ∧ ∃ l, failure_entry os f = Some l ∧ Log l ∈ d_log s).
Proof.
  split.
  - intros err Hstat.
    rewrite findFiles_app, findFiles_cons, Hstat. done.
  - intros Hf r.
    assert (Hin : f ∈ pre ++ f :: post) by (apply elem_of_app; right; by left).
    destruct (no_result_failure os f) as [l Hl].
    { unfold decodes in Hf. destruct (decode_result os f); [|done].
      destruct Hf. eauto. }
    destruct (decodeImages_decoded basename os (pre ++ f :: post)) as [E1 E2].
    destruct (decodeImages_decoded basename os pre) as [P1 P2].
    destruct (decodeImages_decoded basename os post) as [Q1 Q2].
    fold r in E1, E2.
    rewrite (decoded_skip _ _ _ _ _ Hf), fmap_app in E1.
    rewrite (decoded_skip _ _ _ _ _ Hf), fmap_app in E2.
    split; [by rewrite E1, P1, Q1|].
    split; [by rewrite E2, P2, Q2|].
    split.
    + destruct (decodeImages_run_first basename os (pre ++ f :: post))
        as (s0 & Hinv0 & Em0 & El0).
      exists l. split; [done|]. fold r in El0. rewrite <- El0.
      by eapply returned_logged.
    + intros sched names imgs s Em.
      pose proof (run_inv basename os _ sched _
                    (inv_init basename os (pre ++ f :: post))) as Hinv.
      fold s in Hinv.
      destruct (returned_result _ _ _ _ _ _ Hinv Em) as [-> ->].
      rewrite (decoded_skip _ _ _ _ _ Hf), !fmap_app.
      split; [by rewrite E1|]. split; [by rewrite E2|].
      exists l. split; [done|]. by eapply returned_logged.
Qed.

Lemma per_file_failures_are_skipped_witness :
  (findFiles demo_Join demo_os ["x.png"; "missing"; "y.gif"]).2
  = ["x.png"; "y.gif"]
  ∧ (decodeImages demo_basename demo_os ["x.png"; "missing"; "y.gif"]).2.1
    = ["x.png"; "y.gif"].
Proof.
  destruct (per_file_failures_are_skipped demo_Join demo_basename demo_os
              ["x.png"] "missing" ["y.gif"]) as [Hstat Hdecode].
  split.
  - destruct (Hstat "no such file or directory" eq_refl) as [E _]. exact E.
  - assert (Hbad : ¬ decodes demo_os "missing")
      by (vm_compute; intros [x H]; discriminate).
    destruct (Hdecode Hbad) as [E _]. exact E.
Defined.

(** ** The decoder: workers and log at the [return] *)

Section DecodeMore.

Variable basename : string → string.
Variable os : OS.
Variable files : list string.

Local Abbreviation inv := (inv basename os files).
Local Abbreviation step_ := (step basename os files).
Local Abbreviation run_ := (run basename os files).
Local Abbreviation moves_ := (moves basename os files).
Local Abbreviation weight := (weight files).

Local Open Scope nat_scope.

Lemma moves_le_weight sched : ∀ s, inv s → moves_ sched s ≤ weight s.
Proof.
  induction sched as [|t sched IH]; intros s Hinv; simpl; [lia|].
  destruct (step_ t s) as [s'|] eqn:E; [|by apply IH].
  pose proof (step_weight _ _ _ t s s' Hinv E).
  pose proof (IH s' (step_inv _ _ _ t s s' Hinv E)). lia.
Qed.

Lemma returned_all_done s names imgs :
  inv s → d_main s = MReturn names imgs →
  ∀ i f, files !! i = Some f →
    gos s !! i = Some GDone
    ∧ imgChans s !! i
      = Some (if decide (decodes os f) then ChOpen else ChClosed).
Proof.
  intros [Hlc Hlg _ Hw] Em i f Hf.
  assert (Hi : i < length files) by (by eapply lookup_lt_Some).
  destruct (lookup_lt_is_Some_2 (gos s) i) as [g Hg]; [lia|].
  destruct (lookup_lt_is_Some_2 (imgChans s) i) as [c Hc]; [lia|].
  pose proof (Hw i f g c Hf Hg Hc) as Hwi. rewrite Em in Hwi.
  destruct g; simpl in Hwi; try (by intuition auto).
  split; [done|]. rewrite Hc. f_equal.
  destruct Hwi as [_ [[-> (l & Hl & _)]|(-> & _ & Hres)]].
  - rewrite decide_False; [done|]. unfold decodes.
    rewrite (failure_no_result _ _ _ Hl). by intros [].
  - by rewrite decide_True.
Qed.

End DecodeMore.

Section DecodeLog.

Variable basename : string → string.
Variable os : OS.
Variable files : list string.

Local Abbreviation inv := (inv basename os files).
Local Abbreviation step_ := (step basename os files).

Local Abbreviation log_ok := (log_ok os files).

Lemma logged_lines_insert_same fs : ∀ gs i g g',
  gs !! i = Some g → has_logged g' = has_logged g →
  logged_lines os fs (<[i:=g']> gs) = logged_lines os fs gs.
Proof.
  induction fs as [|f fs IH]; intros [|g0 gs] [|i] g g' Hg Hl;
    simplify_eq/=; try done.
  - by rewrite Hl.
  - by rewrite (IH gs i g g').
Qed.

Lemma logged_lines_insert_new fs : ∀ gs i f g g',
  fs !! i = Some f → gs !! i = Some g →
  has_logged g = false → has_logged g' = true →
  logged_lines os fs (<[i:=g']> gs)
  ≡ₚ logged_lines os fs gs ++ [Log (line_of os f)].
Proof.
  induction fs as [|f0 fs IH]; intros [|g0 gs] [|i] f g g' Hf Hg Hl Hl';
    simplify_eq/=.
  - rewrite Hl, Hl'. simpl. apply Permutation_cons_append.
  - rewrite (IH gs i f g g') by done. by rewrite app_assoc.
Qed.

Lemma logged_lines_all_done fs : ∀ gs,
  length gs = length fs → Forall (fun g => g = GDone) gs →
  logged_lines os fs gs = (fun f => Log (line_of os f)) <$> fs.
Proof.
  induction fs as [|f fs IH]; intros [|g gs] Hlen Hall; simplify_eq/=;
    [done|].
  apply Forall_cons in Hall as [-> Hall]. simpl. by rewrite IH.
Qed.

Lemma step_log_ok t s s' :
  inv s → log_ok s → step_ t s = Some s' → log_ok s'.
Proof.
  unfold log_ok. intros Hinv Hlog Hstep.
  pose proof Hinv as [Hlc Hlg Hm Hw].
  destruct t as [|i]; simpl in Hstep.
  - unfold step_main in Hstep.
    destruct (d_main s) as [k|k names imgs|names imgs] eqn:Em; [| |done].
    + destruct (files !! k) as [f|] eqn:Hf; simplify_eq; simpl; [|done].
      assert (Hk : (k < length files)%nat) by (by eapply lookup_lt_Some).
      destruct (lookup_lt_is_Some_2 (gos s) k) as [g Hg]; [lia|].
      destruct (lookup_lt_is_Some_2 (imgChans s) k) as [c Hc]; [lia|].
      pose proof (Hw k f g c Hf Hg Hc) as Hwk.
      assert (g = GUnborn) as ->.
      { destruct g; simpl in Hwk; [done|..];
          try (destruct Hwk as (_ & ? & _); lia); destruct Hwk as [? _]; lia. }
      by rewrite (logged_lines_insert_same _ _ _ GUnborn GOpen).
    + destruct (imgChans s !! k) as [c|] eqn:Hc; simplify_eq; simpl; [|done].
      destruct c; [done| |by simplify_eq].
      destruct (gos s !! k) as [g|] eqn:Hg; [|done].
      destruct g; simplify_eq; simpl.
      by rewrite (logged_lines_insert_same _ _ _ (GSend t) GDone).
  - unfold step_go in Hstep.
    destruct (files !! i) as [f|] eqn:Hf; [|done].
    destruct (gos s !! i) as [g|] eqn:Hg; [|done].
    assert (Hi : (i < length files)%nat) by (by eapply lookup_lt_Some).
    destruct (lookup_lt_is_Some_2 (imgChans s) i) as [c Hc]; [lia|].
    pose proof (Hw i f g c Hf Hg Hc) as Hwi.
    destruct g; simplify_eq; simpl in *.
    + rewrite (logged_lines_insert_same _ _ _ GOpen); [done|done|].
      by destruct (os_Open os f).
    + rewrite (logged_lines_insert_new _ _ _ f (GOpenErr err)) by done.
      destruct Hwi as (_ & _ & _ & Ho).
      rewrite Hlog. unfold line_of. by rewrite Ho.
    + rewrite (logged_lines_insert_same _ _ _ GDecode); [done|done|].
      by destruct (image_Decode os f) as [?|[]].
    + rewrite (logged_lines_insert_new _ _ _ f (GDecodeErr err)) by done.
      destruct Hwi as (_ & _ & _ & Ho & Hd).
      rewrite Hlog. unfold line_of. by rewrite Ho, Hd.
    + rewrite (logged_lines_insert_new _ _ _ f (GDecoded im kind)) by done.
      destruct Hwi as (_ & _ & _ & Ho & Hd).
      rewrite Hlog. unfold line_of. by rewrite Ho, Hd.
    + by rewrite (logged_lines_insert_same _ _ _ GClose GDone).
Qed.

Lemma log_ok_init : log_ok (d_init files).
Proof.
  unfold log_ok, d_init. simpl.
  assert (E : ∀ fs k, logged_lines os fs (replicate k GUnborn) = []).
  { induction fs as [|f fs IH]; intros [|k]; simpl; try done. }
  by rewrite E.
Qed.

Lemma run_log_ok sched : ∀ s,
  inv s → log_ok s →
  log_ok (run basename os files sched s).
Proof.
  induction sched as [|t sched IH]; intros s Hinv Hlog; [done|]. simpl.
  destruct (step_ t s) as [s'|] eqn:E; simpl; [|by apply IH].
  apply IH; [by eapply step_inv|by eapply step_log_ok].
Qed.

Lemma run_first_log_ok fuel : ∀ s,
  inv s → log_ok s → log_ok (run_first basename os files fuel s).
Proof.
  induction fuel as [|fuel IH]; intros s Hinv Hlog; [done|].
  rewrite run_first_S.
  destruct (first_enabled _ _ _ _ s) as [s'|] eqn:E; [|done].
  destruct (first_enabled_step _ _ _ _ _ _ E) as [t Ht].
  apply IH; [by eapply step_inv|by eapply step_log_ok].
Qed.

Lemma returned_log s names imgs :
  inv s → log_ok s → d_main s = MReturn names imgs →
  d_log s ≡ₚ (fun f => Log (line_of os f)) <$> files.
Proof.
  intros Hinv Hlog Em. unfold log_ok in Hlog. rewrite Hlog.
  rewrite logged_lines_all_done; [done|by apply (inv_gos _ _ _ _ Hinv)|].
  apply Forall_lookup. intros i g Hg.
  assert (Hi : (i < length files)%nat).
  { rewrite <- (inv_gos _ _ _ _ Hinv). by eapply lookup_lt_Some. }
  destruct (lookup_lt_is_Some_2 files i Hi) as [f Hf].
  destruct (returned_all_done _ _ _ _ _ _ Hinv Em i f Hf) as [Hd _].
  congruence.
Qed.

End DecodeLog.

Lemma decodeImages_log_perm basename os files :
  (decodeImages basename os files).1
  ≡ₚ (fun f => Log (line_of os f)) <$> files.
Proof.
  unfold decodeImages.
  destruct (run_first_returns basename os files (6 * length files + 2)
              (d_init files)) as (Hinv & names & imgs & Em).
  { apply inv_init. }
  { by rewrite weight_init. }
  rewrite Em. simpl.
  eapply returned_log; [exact Hinv| |exact Em].
  apply run_first_log_ok; [apply inv_init|apply log_ok_init].
Qed.

Lemma decodeImages_under_log_perm basename os sched files :
  (decodeImages_under basename os sched files).1
  ≡ₚ (fun f => Log (line_of os f)) <$> files.
Proof.
  destruct (decodeImages_under_returns basename os sched files)
    as (s & Hinv & Em & El & Es).
  rewrite <- El. eapply returned_log; [exact Hinv| |exact Em].
  subst s. apply run_first_log_ok; [apply run_inv, inv_init|].
  apply run_log_ok; [apply inv_init|apply log_ok_init].
Qed.

Lemma returned_no_step basename os files s names imgs t :
  inv basename os files s → d_main s = MReturn names imgs →
  step basename os files t s = None.
Proof.
  intros Hinv Em. destruct t as [|i]; simpl.
  - unfold step_main. by rewrite Em.
  - unfold step_go. destruct (files !! i) as [f|] eqn:Hf; [|done].
    destruct (returned_all_done _ _ _ _ _ _ Hinv Em i f Hf) as [-> _]. done.
Qed.

Lemma first_enabled_none basename os files s ts :
  (∀ t, step basename os files t s = None) →
  first_enabled basename os files ts s = None.
Proof.
  intros Hs. induction ts as [|t ts IH]; [done|]. simpl. by rewrite Hs.
Qed.

(** A schedule that takes the caller to its [return] is a whole run of
    [decodeImages]: nothing is left to run after it, and the log is the
    log of that schedule. *)
Lemma decodeImages_under_complete basename os sched files names imgs :
  d_main (run basename os files sched (d_init files)) = MReturn names imgs →
  decodeImages_under basename os sched files
  = (d_log (run basename os files sched (d_init files)), (names, imgs)).
Proof.
  intros Em. unfold decodeImages_under.
  pose proof (run_inv basename os files sched _ (inv_init _ _ files)) as Hinv.
  assert (E : ∀ fuel s, inv basename os files s →
                d_main s = MReturn names imgs →
                run_first basename os files fuel s = s).
  { intros [|fuel] s Hs Hm; [done|]. rewrite run_first_S.
    rewrite first_enabled_none; [done|].
    intros t. by eapply returned_no_step. }
  rewrite E by done. by rewrite Em.
Qed.

Example demo_complete_schedule :
  decodeImages_under demo_basename demo_os a_schedule ["x.png"; "bad.png"]
  = ([Log (LogDecoded "x.png" "png");
      Log (LogDecodeErr "bad.png" "image: unknown format")],
     (["x.png"], [demo_image 5]))
  ∧ decodeImages_under demo_basename demo_os second_worker_first
      ["x.png"; "bad.png"]
    = ([Log (LogDecodeErr "bad.png" "image: unknown format");
        Log (LogDecoded "x.png" "png")],
       (["x.png"], [demo_image 5])).
Proof. split; reflexivity. Qed.

(** ** Runs of the whole program *)

Lemma bind_unfold {A B} (m : M A) (f : A → M B) :
  m ≫= f
  = match m.2 with
    | inl a => (m.1 ++ (f a).1, (f a).2)
    | inr e => (m.1, inr e)
    end.
Proof.
  destruct m as [o [a|e]]; simpl; [|done].
  unfold mbind, M_bind. by destruct (f a).
Qed.

Lemma bind_returns {A B} (m : M A) (f : A → M B) a :
  m.2 = inl a → m ≫= f = (m.1 ++ (f a).1, (f a).2).
Proof. intros H. by rewrite bind_unfold, H. Qed.

Lemma no_usage_app a1 a2 : no_usage a1 → no_usage a2 → no_usage (a1 ++ a2).
Proof. unfold no_usage. intros H1 H2 [?|?]%elem_of_app; tauto. Qed.

Lemma no_usage_nil : no_usage [].
Proof. unfold no_usage. apply not_elem_of_nil. Qed.

Lemma no_usage_cons a acts :
  a ≠ UsageLine → no_usage acts → no_usage (a :: acts).
Proof.
  unfold no_usage. intros Ha Hacts [E|H]%elem_of_cons; [congruence|tauto].
Qed.

Ltac no_usage_list :=
  repeat (apply no_usage_cons; [discriminate|]); apply no_usage_nil.

Lemma no_usage_bind {A B} (m : M A) (f : A → M B) :
  no_usage m.1 → (∀ a, m.2 = inl a → no_usage (f a).1) →
  no_usage (m ≫= f).1.
Proof.
  intros Hm Hf. rewrite bind_unfold.
  destruct (m.2) as [a|e] eqn:E; simpl; [|done].
  apply no_usage_app; eauto.
Qed.

(** *** The loop: when it ends in [log.Fatal] *)

Lemma handle_return imgs st ev :
  (handle imgs st ev).2 = Return → is_quit ev.
Proof.
  destruct ev as [m|k|p|z| |err|d]; simpl; try done.
  - unfold on_mouse. repeat case_match; done.
  - unfold on_key. destruct k as [code dir].
    destruct code; simpl; eauto; repeat case_match; done.
  - unfold on_paint. repeat case_match; done.
  - unfold on_size. repeat case_match; done.
Qed.

Lemma handle_fatal imgs st ev err :
  (handle imgs st ev).2 = Fatal err →
  ∃ e, ev = EvSize e ∧ size.NewBuffer e = Some err.
Proof.
  destruct ev as [m|k|p|z| |e|d]; simpl; try done.
  - unfold on_mouse. repeat case_match; done.
  - unfold on_key. destruct k as [code dir].
    destruct code; simpl; repeat case_match; done.
  - unfold on_paint. repeat case_match; done.
  - unfold on_size. destruct (size.NewBuffer z) eqn:E.
    + intros [= <-]. eauto.
    + repeat case_match; done.
Qed.

Lemma loop_fatal_only_if imgs evs : ∀ st err,
  (loop imgs st evs).2 = Fatal err → buffer_fails evs.
Proof.
  induction evs as [|ev evs IH]; intros st err; [done|].
  rewrite loop_cons.
  destruct (handle imgs st ev) as [acts c] eqn:Eh.
  destruct c as [st'| |err'|].
  - destruct (loop imgs st' evs) as [acts' c'] eqn:El. simpl. intros ->.
    destruct (IH st' err) as (pre & e & post & -> & He & Hpre);
      [by rewrite El|].
    exists (ev :: pre), e, post. split; [done|]. split; [done|].
    constructor; [|done]. intros Hq.
    destruct ev as [m|k|p|z| |e'|d]; try done.
    simpl in Eh. unfold on_key in Eh. destruct Hq as [Hq|Hq];
      rewrite Hq in Eh; done.
  - done.
  - simpl. intros [= ->].
    destruct (handle_fatal imgs st ev err) as (e & -> & He);
      [by rewrite Eh|].
    exists [], e, evs. rewrite He. eauto.
  - done.
Qed.

Lemma loop_fatal_if imgs pre : ∀ st e post,
  0 < len imgs <= int_max → index_ok imgs st →
  is_Some (size.NewBuffer e) → Forall (fun ev => ¬ is_quit ev) pre →
  ∃ err, (loop imgs st (pre ++ EvSize e :: post)).2 = Fatal err.
Proof.
  induction pre as [|ev pre IH]; intros st e post Hn Hi [err He] Hpre.
  - exists err. simpl. unfold on_size. by rewrite He.
  - apply Forall_cons in Hpre as [Hev Hpre].
    change ((ev :: pre) ++ EvSize e :: post)
      with (ev :: (pre ++ EvSize e :: post)).
    rewrite loop_cons.
    destruct (handle_index_cases imgs st ev Hn Hi)
      as [H|[[err' H]|(st' & H & Hi')]].
    + destruct Hev. by eapply handle_return.
    + destruct (handle imgs st ev) as [acts c]; simpl in H; subst c. eauto.
    + destruct (handle imgs st ev) as [acts c]; simpl in H; subst c.
      destruct (IH st' e post Hn Hi' (ex_intro _ err He) Hpre) as [err' E].
      exists err'. by destruct (loop imgs st' (pre ++ EvSize e :: post)).
Qed.

(** How the loop can end, from a state whose index is in bounds. *)
Lemma loop_cases imgs st evs :
  0 < len imgs <= int_max → index_ok imgs st →
  match (loop imgs st evs).2 with
  | Next st' => ¬ buffer_fails evs ∧ index_ok imgs st'
  | Return => ¬ buffer_fails evs
  | Fatal _ => buffer_fails evs
  | IndexPanic => False
  end.
Proof.
  intros Hn Hi.
  assert (Hno : ∀ c, (loop imgs st evs).2 = c → (∀ err, c ≠ Fatal err) →
                ¬ buffer_fails evs).
  { intros c Hc Hnf (pre & e & post & -> & He & Hpre).
    destruct (loop_fatal_if imgs pre st e post Hn Hi He Hpre) as [err E].
    rewrite E in Hc. by destruct (Hnf err). }
  destruct (loop_index_cases imgs evs st Hn Hi) as [H|[[err H]|(st' & H & Hi')]];
    rewrite H.
  - by eapply Hno.
  - by eapply loop_fatal_only_if.
  - split; [by eapply Hno|done].
Qed.

(** *** The callback *)

Lemma newWindow_fails s size :
  match newWindow s size with
  | inl _ => window_fails s size
  | inr w0 =>
      ¬ window_fails s size
      ∧ w0 = {| b := size; orig := image.ZP; pan := false; mouse_ := image.ZP |}
  end.
Proof.
  unfold newWindow, window_fails.
  destruct (s_NewWindow s size); [eauto|].
  destruct (s_NewBuffer s size); [eauto|].
  split; [|done]. intros [[? ?]|[? ?]]; done.
Qed.

Lemma len_cons_pos {A} (x : A) l : 0 < len (x :: l).
Proof. unfold len. simpl. lia. Qed.

Lemma window_size_returns c names imgs :
  imgs ≠ [] → length names = length imgs →
  ∃ acts, window_size c names imgs = (acts, inl (window_size_of c imgs))
          ∧ no_usage acts.
Proof.
  intros Hne Hlen. unfold window_size, window_size_of.
  destruct (flagAutoResize c).
  - destruct imgs as [|img0 imgs]; [done|].
    destruct names as [|name0 names]; [done|].
    eexists. split; [reflexivity|]. simpl. no_usage_list.
  - eexists. split; [reflexivity|]. no_usage_list.
Qed.

Lemma callback_cases c s names imgs evs :
  len imgs <= int_max → length names = length imgs →
  match (callback c s names imgs evs).2 with
  | inr (Exit code) => code = 1 ∧ callback_fails c s imgs evs
  | inr (Waiting st) => ¬ callback_fails c s imgs evs ∧ index_ok imgs st
  | inl _ => ¬ callback_fails c s imgs evs
  | inr Panic => False
  end.
Proof.
  intros Hmax Hlen. unfold callback, callback_fails.
  destruct imgs as [|img0 imgs'].
  - simpl. eauto.
  - set (imgs := img0 :: imgs') in *.
    assert (Hn : 0 < len imgs <= int_max)
      by (split; [apply len_cons_pos|done]).
    replace (len imgs =? 0) with false
      by (symmetry; apply Z.eqb_neq; lia).
    destruct (window_size_returns c names imgs) as (acts & Ews & _);
      [done|done|].
    rewrite (bind_returns (mret tt) _ tt) by done.
    rewrite (bind_returns _ _ _ (f_equal snd Ews : _.2 = inl _)).
    pose proof (newWindow_fails s (window_size_of c imgs)) as Hw.
    destruct (newWindow s (window_size_of c imgs)) as [err|w0].
    + simpl. split; [done|]. eauto.
    + destruct Hw as [Hw ->]. cbn -[loop].
      assert (Hi : index_ok imgs (initial_state (window_size_of c imgs)))
        by (unfold index_ok; simpl; lia).
      pose proof (loop_cases imgs _ evs Hn Hi) as Hl.
      unfold initial_state in Hl.
      assert (E0 : at_index imgs 0 = mret img0) by reflexivity.
      rewrite E0. cbn -[loop]. unfold run_loop.
      destruct (loop imgs _ evs) as [acts' ctl]. simpl in Hl.
      assert (Hne : imgs ≠ []) by done.
      destruct ctl as [st'| |err|]; simpl; [| | |done]; intuition auto.
Qed.

(** *** [init] and [main] *)

Lemma bind_snd {A B} (m : M A) (f : A → M B) :
  (m ≫= f).2 = match m.2 with inl a => (f a).2 | inr e => inr e end.
Proof. rewrite bind_unfold. by destruct (m.2). Qed.

Lemma init_zero c : zero_size c → init c = (fatal_zero_size, inr (Exit 1)).
Proof.
  unfold init. intros [H|H]; rewrite H; [done|].
  by rewrite orb_true_r.
Qed.

Lemma init_nonzero c : ¬ zero_size c → init c = ([], inl tt).
Proof.
  unfold init, zero_size. intros H.
  destruct (Z.eqb_spec (flagWidth c) 0); [tauto|].
  destruct (Z.eqb_spec (flagHeight c) 0); [tauto|]. done.
Qed.

Lemma start_profile_cases os c :
  no_usage (start_profile os c).1
  ∧ match (start_profile os c).2 with
    | inl _ => ¬ profile_fails os c
    | inr (Exit code) => code = 1 ∧ profile_fails os c
    | inr _ => False
    end.
Proof.
  unfold start_profile, profile_fails.
  destruct (flagProfile c) as [|a p] eqn:Ep.
  - simpl. split; [no_usage_list|]. by intros [? _].
  - replace (0 <? Z.of_nat (String.length (String a p))) with true
      by (symmetry; apply Z.ltb_lt; simpl; lia).
    destruct (os_Create os (String a p)) as [err|] eqn:Ec; simpl.
    + split; [no_usage_list|]. split; [done|]. split; [done|eauto].
    + split; [no_usage_list|]. by intros [_ [? ?]].
Qed.

Lemma decodeImages_lengths basename os files :
  length (decodeImages basename os files).2.1
  = length (decodeImages basename os files).2.2
  ∧ (length (decodeImages basename os files).2.2 ≤ length files)%nat.
Proof.
  destruct (decodeImages_decoded basename os files) as [-> ->].
  rewrite !length_fmap. split; [done|].
  induction files as [|f files IH]; [done|].
  rewrite decoded_cons. destruct (decode_result os f); simpl; lia.
Qed.

Lemma program_cases Join basename os c s evs :
  len (main_files Join os c) <= int_max →
  match (program Join basename os c s evs).2 with
  | inr (Exit code) => code = 1 ∧ program_fails Join basename os c s evs
  | inr (Waiting st) =>
      ¬ program_fails Join basename os c s evs
      ∧ index_ok (main_imgs Join basename os c) st
  | inl _ => ¬ program_fails Join basename os c s evs
  | inr Panic => False
  end.
Proof.
  intros Hmax. unfold program, program_fails.
  destruct (decide (zero_size c)) as [Hz|Hz].
  { rewrite init_zero by done. simpl. eauto. }
  rewrite init_nonzero by done. rewrite bind_snd. simpl.
  unfold main. rewrite bind_snd.
  destruct (start_profile_cases os c) as [_ Hp].
  destruct (start_profile os c).2 as [profiling|[code|st|]]; [| |done..].
  2:{ destruct Hp as [-> Hp]. eauto. }
  rewrite bind_snd.
  destruct (Args c) as [|a args] eqn:Ea.
  { simpl. eauto. }
  replace (len (a :: args) =? 0) with false
    by (symmetry; apply Z.eqb_neq; pose proof (len_cons_pos a args); lia).
  simpl.
  rewrite <- Ea. fold (main_files Join os c).
  rewrite !decodeImages_under_result.
  destruct (decodeImages_lengths basename os (main_files Join os c))
    as [Hlen Hle].
  pose proof (callback_cases c s (main_names Join basename os c)
                (main_imgs Join basename os c) evs) as Hcb.
  unfold main_names, main_imgs in *.
  set (cb := callback c s _ _ evs) in *.
  assert (E : (cb ≫= fun _ : () =>
                 if profiling then emit StopCPUProfile else mret tt).2
              = match cb.2 with inl _ => inl tt | inr e => inr e end).
  { rewrite bind_snd. destruct (cb.2); [by destruct profiling|done]. }
  destruct (cb ≫= _) as [o r]. simpl in E. subst r. simpl.
  assert (Hnz : ¬ (a :: args = [])) by done.
  destruct (cb.2) as [[]|[code|st|]];
    (lapply Hcb; [clear Hcb; intros Hcb|unfold len in *; lia]);
    specialize (Hcb Hlen); intuition (auto; congruence).
Qed.

(** *** Where the usage message can come from *)

Lemma findFiles_no_usage Join os args : no_usage (findFiles Join os args).1.
Proof.
  induction args as [|f args IH]; [apply no_usage_nil|].
  rewrite findFiles_cons. destruct (os_Stat os f) as [err|[]]; simpl; [|done..].
  by apply no_usage_cons.
Qed.

Lemma step_log basename os files t s s' :
  step basename os files t s = Some s' →
  no_usage (d_log s) → no_usage (d_log s').
Proof.
  intros Hstep Hs. destruct t as [|i]; simpl in Hstep.
  - unfold step_main in Hstep. repeat case_match; by simplify_eq.
  - unfold step_go in Hstep.
    repeat case_match; simplify_eq; simpl; try done;
      (apply no_usage_app; [done|no_usage_list]).
Qed.

Lemma run_first_log basename os files fuel : ∀ s,
  no_usage (d_log s) → no_usage (d_log (run_first basename os files fuel s)).
Proof.
  induction fuel as [|fuel IH]; intros s Hs; [done|].
  rewrite run_first_S.
  destruct (first_enabled _ _ _ _ s) as [s'|] eqn:E; [|done].
  destruct (first_enabled_step _ _ _ _ _ _ E) as [t Ht].
  apply IH. by eapply step_log.
Qed.

Lemma run_no_usage basename os files sched : ∀ s,
  no_usage (d_log s) → no_usage (d_log (run basename os files sched s)).
Proof.
  induction sched as [|t sched IH]; intros s Hs; [done|]. simpl.
  destruct (step basename os files t s) as [s'|] eqn:E; simpl; [|by apply IH].
  apply IH. by eapply step_log.
Qed.

Lemma decodeImages_under_no_usage basename os sched files :
  no_usage (decodeImages_under basename os sched files).1.
Proof.
  unfold decodeImages_under.
  pose proof (run_first_log basename os files (6 * length files + 2)
                (run basename os files sched (d_init files))
                (run_no_usage basename os files sched (d_init files)
                   no_usage_nil)) as H.
  by destruct (d_main _).
Qed.

Lemma decodeImages_no_usage basename os files :
  no_usage (decodeImages basename os files).1.
Proof.
  unfold decodeImages.
  pose proof (run_first_log basename os files (6 * length files + 2)
                (d_init files) no_usage_nil) as H.
  by destruct (d_main _).
Qed.

Lemma handle_no_usage imgs st ev : no_usage (handle imgs st ev).1.
Proof.
  destruct ev as [m|k|p|z| |err|d]; simpl; try no_usage_list.
  - unfold on_mouse. repeat case_match; simpl; no_usage_list.
  - unfold on_key. destruct k as [code dir].
    destruct code; simpl; repeat case_match; simpl; no_usage_list.
  - unfold on_paint. repeat case_match; simpl; no_usage_list.
  - unfold on_size. repeat case_match; simpl; no_usage_list.
Qed.

Lemma loop_no_usage imgs evs : ∀ st, no_usage (loop imgs st evs).1.
Proof.
  induction evs as [|ev evs IH]; intros st; [apply no_usage_nil|].
  rewrite loop_cons. pose proof (handle_no_usage imgs st ev) as Hh.
  destruct (handle imgs st ev) as [acts c]. simpl in Hh.
  destruct c as [st'| | |]; try done.
  specialize (IH st'). destruct (loop imgs st' evs) as [acts' c'].
  simpl in *. by apply no_usage_app.
Qed.

Lemma run_loop_no_usage imgs st evs : no_usage (run_loop imgs st evs).1.
Proof.
  unfold run_loop. pose proof (loop_no_usage imgs evs st) as H.
  destruct (loop imgs st evs) as [acts c]. simpl in H.
  destruct c; simpl; try done.
  apply no_usage_app; [done|no_usage_list].
Qed.

Lemma callback_no_usage c s names imgs evs :
  no_usage (callback c s names imgs evs).1.
Proof.
  unfold callback. apply no_usage_bind.
  { destruct (len imgs =? 0); simpl; no_usage_list. }
  intros _ _. apply no_usage_bind.
  { unfold window_size. destruct (flagAutoResize c); [|no_usage_list].
    apply no_usage_bind.
    { unfold at_index. destruct (index imgs 0); no_usage_list. }
    intros img0 _. apply no_usage_bind.
    { unfold at_index. destruct (index names 0); no_usage_list. }
    intros name0 _. simpl. no_usage_list. }
  intros winSize _. destruct (newWindow s winSize) as [err|w0].
  { simpl. no_usage_list. }
  apply no_usage_bind; [no_usage_list|]. intros _ _.
  apply no_usage_bind.
  { unfold at_index. destruct (index imgs _); no_usage_list. }
  intros img0 _. apply no_usage_bind; [no_usage_list|]. intros _ _.
  apply run_loop_no_usage.
Qed.

(** With at least one argument the usage message is not printed. *)
Lemma program_no_usage Join basename os c s evs :
  Args c ≠ [] → no_usage (program Join basename os c s evs).1.
Proof.
  intros Hargs. unfold program. apply no_usage_bind.
  { unfold init. destruct (_ || _); simpl; no_usage_list. }
  intros _ _. unfold main. apply no_usage_bind.
  { apply start_profile_cases. }
  intros profiling _. apply no_usage_bind.
  { destruct (Args c) as [|a args]; [done|].
    replace (len (a :: args) =? 0) with false
      by (symmetry; apply Z.eqb_neq; pose proof (len_cons_pos a args); lia).
    no_usage_list. }
  intros _ _. apply no_usage_bind; [apply findFiles_no_usage|].
  intros files _. apply no_usage_bind; [apply decodeImages_under_no_usage|].
  intros r _. apply no_usage_bind; [no_usage_list|].
  intros _ _. apply no_usage_bind; [apply callback_no_usage|].
  intros _ _. destruct profiling; no_usage_list.
Qed.

(** Without arguments, and past the checks that come first, the run ends
    in [usage()]. *)
Lemma program_no_args Join basename os c s evs :
  ¬ zero_size c → ¬ profile_fails os c → Args c = [] →
  program Join basename os c s evs
  = ((start_profile os c).1
       ++ [Stderr newline; Log LogNoImagesSpecified; UsageLine; PrintDefaults],
     inr (Exit 1)).
Proof.
  intros Hz Hp Hargs. unfold program. rewrite init_nonzero by done.
  rewrite (bind_returns _ _ tt) by done. simpl.
  unfold main. destruct (start_profile_cases os c) as [_ Hsp].
  destruct (start_profile os c).2 as [profiling|e] eqn:E.
  - rewrite (bind_returns _ _ profiling) by done. rewrite Hargs. simpl.
    by destruct (start_profile os c).
  - destruct e; [by destruct Hsp|done..].
Qed.

Lemma start_profile_returns os c :
  ¬ profile_fails os c → ∃ profiling, (start_profile os c).2 = inl profiling.
Proof.
  intros Hp. destruct (start_profile_cases os c) as [_ H].
  destruct (start_profile os c).2 as [profiling|[code|st|]]; try done.
  - eauto.
  - by destruct H as [_ H].
Qed.

(** A run that gets to the callback, spelled out. *)
Lemma program_with_args Join basename os c s evs profiling :
  ¬ zero_size c → (start_profile os c).2 = inl profiling → Args c ≠ [] →
  program Join basename os c s evs
  = (startup_output Join basename os c
       ++ [DriverMain]
       ++ (callback c s (main_names Join basename os c)
             (main_imgs Join basename os c) evs).1
       ++ match (callback c s (main_names Join basename os c)
                   (main_imgs Join basename os c) evs).2 with
          | inl _ => if profiling then [StopCPUProfile] else []
          | inr _ => []
          end,
     match (callback c s (main_names Join basename os c)
              (main_imgs Join basename os c) evs).2 with
     | inl _ => inl tt
     | inr e => inr e
     end).
Proof.
  intros Hz Hp Hargs. unfold program. rewrite init_nonzero by done.
  rewrite (bind_returns _ _ tt) by done. simpl.
  unfold main. rewrite (bind_returns _ _ profiling) by done.
  destruct (Args c) as [|a args] eqn:Ea; [done|].
  replace (len (a :: args) =? 0) with false
    by (symmetry; apply Z.eqb_neq; pose proof (len_cons_pos a args); lia).
  rewrite (bind_returns (mret tt) _ tt) by done.
  rewrite <- Ea.
  rewrite (bind_returns (logged (findFiles Join os (Args c))) _ _ eq_refl).
  rewrite (bind_returns (logged (decodeImages_under basename os _ _)) _ _
             eq_refl).
  rewrite (bind_returns (emit DriverMain) _ tt) by done.
  fold (main_files Join os c). rewrite decodeImages_under_result.
  fold (main_names Join basename os c). fold (main_imgs Join basename os c).
  unfold startup_output, decode_log. simpl.
  set (cb := callback c s _ _ evs). rewrite bind_unfold.
  destruct (cb.2) as [[]|e]; simpl.
  - destruct profiling; simpl; by rewrite <- ?app_assoc.
  - by rewrite <- ?app_assoc, ?app_nil_r.
Qed.

Example demo_findFiles :
  findFiles demo_Join demo_os ["x.png"; "missing"; "dir"; "y.gif"]
  = ([Log (LogCantAccess "missing" "no such file or directory")],
     ["x.png"; "dir/a.png"; "dir/.hidden"; "dir/b."; "dir/c.gif"; "y.gif"]).
Proof. reflexivity. Qed.

Example demo_decodeImages :
  (decodeImages demo_basename demo_os
     ["x.png"; "bad.png"; "locked.png"; "y.gif"]).2
  = (["x.png"; "y.gif"], [demo_image 5; demo_image 5]).
Proof. reflexivity. Qed.

Example demo_zero_width :
  program demo_Join demo_basename demo_os zero_width_cmdline demo_screen []
  = ([Log (LogMsg "The width and height must be non-zero values.")],
     inr (Exit 1)).
Proof. reflexivity. Qed.

Example demo_bad_profile :
  program demo_Join demo_basename demo_os bad_profile_cmdline demo_screen []
  = ([Log (LogErr "no such file or directory")], inr (Exit 1)).
Proof. reflexivity. Qed.

Example demo_no_args :
  program demo_Join demo_basename demo_os no_args_cmdline demo_screen []
  = ([Stderr newline; Log LogNoImagesSpecified; UsageLine; PrintDefaults],
     inr (Exit 1)).
Proof. reflexivity. Qed.

(** ** Exits *)

(** C3, amended: a run exits with a non-zero status exactly when the
    width or the height is zero, or the profile asked for cannot be
    created, or no argument is given, or no image could be decoded, or
    the window or its buffer cannot be created, or a later size event
    finds no buffer before Escape or Q is pressed. Any other run has
    either returned after Escape or Q, or waits for the next event. *)
Theorem program_aborts_iff Join basename os c s evs :
  len (main_files Join os c) <= int_max →
  (aborts (program Join basename os c s evs)
   ↔ zero_size c
     ∨ profile_fails os c
     ∨ Args c = []
     ∨ main_imgs Join basename os c = []
     ∨ window_fails s (window_size_of c (main_imgs Join basename os c))
     ∨ buffer_fails evs)
  ∧ (¬ aborts (program Join basename os c s evs) →
     (program Join basename os c s evs).2 = inl tt
     ∨ ∃ st, (program Join basename os c s evs).2 = inr (Waiting st)).
Proof.
  intros Hmax. pose proof (program_cases Join basename os c s evs Hmax) as H.
  unfold program_fails, callback_fails, aborts in *.
  destruct (program Join basename os c s evs).2 as [[]|[code|st|]];
    [| | |done].
  - split; [|eauto]. split; [by intros (? & ? & _)|tauto].
  - destruct H as [-> H]. split.
    + split; [tauto|]. intros _. exists 1. done.
    + intros []. exists 1. done.
  - split; [|eauto]. split; [by intros (? & ? & _)|tauto].
Qed.

Lemma program_aborts_iff_witness :
  aborts (program demo_Join demo_basename demo_os bad_profile_cmdline
            demo_screen [])
  ↔ zero_size bad_profile_cmdline
    ∨ profile_fails demo_os bad_profile_cmdline
    ∨ Args bad_profile_cmdline = []
    ∨ main_imgs demo_Join demo_basename demo_os bad_profile_cmdline = []
    ∨ window_fails demo_screen
        (window_size_of bad_profile_cmdline
           (main_imgs demo_Join demo_basename demo_os bad_profile_cmdline))
    ∨ buffer_fails [].
Proof.
  apply (program_aborts_iff demo_Join demo_basename demo_os
           bad_profile_cmdline demo_screen []).
  vm_compute. discriminate.
Defined.

(** With a zero width the run exits with status 1 although both images
    decode and the window and its buffer could be created. *)
Lemma zero_width_aborts_with_images_and_window :
  ¬ (aborts (program demo_Join demo_basename demo_os zero_width_cmdline
               demo_screen [])
     ↔ main_imgs demo_Join demo_basename demo_os zero_width_cmdline = []
       ∨ window_fails demo_screen
           (window_size_of zero_width_cmdline
              (main_imgs demo_Join demo_basename demo_os zero_width_cmdline))
       ∨ buffer_fails []).
Proof.
  intros [H _].
  destruct H as [H|[[[x H]|[x H]]|(pre & e & post & H & _)]].
  - exists 1. split; [reflexivity|discriminate].
  - vm_compute in H. discriminate.
  - vm_compute in H. discriminate.
  - vm_compute in H. discriminate.
  - destruct pre; discriminate.
Qed.

(** C4, amended: with a zero width or height the run logs "The width
    and height must be non-zero values." and exits with status 1, and
    the usage message is not printed. With a non-zero width and height,
    a profile (if any) that could be started and no argument, the run
    prints a newline, logs "No images specified.", prints the usage
    message and exits with status 1. *)
Theorem zero_size_fatal_no_args_usage Join basename os c s evs :
  (zero_size c →
   program Join basename os c s evs
   = ([Log (LogMsg "The width and height must be non-zero values.")],
      inr (Exit 1)))
  ∧ (¬ zero_size c → ¬ profile_fails os c → Args c = [] →
     program Join basename os c s evs
     = ((start_profile os c).1
          ++ [Stderr newline; Log LogNoImagesSpecified; UsageLine;
              PrintDefaults],
        inr (Exit 1))).
Proof.
  split.
  - intros Hz. unfold program. by rewrite init_zero.
  - apply program_no_args.
Qed.

Lemma zero_size_fatal_no_args_usage_witness :
  program demo_Join demo_basename demo_os zero_width_cmdline demo_screen []
  = ([Log (LogMsg "The width and height must be non-zero values.")],
     inr (Exit 1))
  ∧ program demo_Join demo_basename demo_os no_args_cmdline demo_screen []
    = ([Stderr newline; Log LogNoImagesSpecified; UsageLine; PrintDefaults],
       inr (Exit 1)).
Proof.
  split.
  - apply (zero_size_fatal_no_args_usage demo_Join demo_basename demo_os
             zero_width_cmdline demo_screen []).
    left. reflexivity.
  - apply (zero_size_fatal_no_args_usage demo_Join demo_basename demo_os
             no_args_cmdline demo_screen []).
    + vm_compute. intros [H|H]; discriminate.
    + vm_compute. intros [H _]. by apply H.
    + reflexivity.
Defined.

(** The newline that the run prints is the single byte 10. *)
Example newline_is_one_byte :
  nat_of_ascii <$> list_ascii_of_string newline = [10%nat].
Proof. reflexivity. Qed.

(** With a zero width the usage message is not printed. *)
Lemma zero_width_prints_no_usage :
  ¬ (Args zero_width_cmdline = [] ∨ zero_size zero_width_cmdline →
     UsageLine ∈ (program demo_Join demo_basename demo_os zero_width_cmdline
                    demo_screen []).1
     ∧ aborts (program demo_Join demo_basename demo_os zero_width_cmdline
                 demo_screen [])).
Proof.
  intros H. destruct H as [Hin _].
  - right. left. reflexivity.
  - rewrite demo_zero_width in Hin. simpl in Hin.
    apply elem_of_cons in Hin as [Hin|Hin]; [discriminate|].
    by apply elem_of_nil in Hin.
Qed.

(** ** The command line *)

Lemma Var_fresh name v usage (formal : gmap string flag.Flag) :
  name ∉ dom formal →
  ∃ fs, flag.Var name v usage formal = Some fs
        ∧ dom fs = {[ name ]} ∪ dom formal
        ∧ fs !! name = Some {| flag.Usage := usage; flag.DefValue := v |}
        ∧ ∀ other, other ≠ name → fs !! other = formal !! other.
Proof.
  intros Hfresh. apply not_elem_of_dom in Hfresh.
  unfold flag.Var. rewrite Hfresh. eexists. split; [done|].
  split; [by rewrite dom_insert_L|].
  split; [by rewrite lookup_insert_eq|].
  intros other Hne. by rewrite lookup_insert_ne.
Qed.

Ltac flag_membership :=
  rewrite ?dom_empty_L, ?elem_of_union, ?elem_of_singleton, ?elem_of_empty.

Ltac fresh_flag :=
  unfold not; flag_membership; intuition discriminate.

Lemma init_flags_defined :
  ∃ fs, init_flags = Some fs
        ∧ dom fs = flag_names
        ∧ fs !! "v" = Some {| flag.Usage :=
              "If set, logging output will be printed to stderr.";
              flag.DefValue := flag.BoolValue false |}
        ∧ fs !! "width" = Some {| flag.Usage :=
              "The initial width of the window.";
              flag.DefValue := flag.IntValue 600 |}
        ∧ fs !! "height" = Some {| flag.Usage :=
              "The initial height of the window.";
              flag.DefValue := flag.IntValue 600 |}.
Proof.
  unfold init_flags, flag.BoolVar, flag.IntVar, flag.StringVar.
  destruct (Var_fresh "v" (flag.BoolValue false)
              "If set, logging output will be printed to stderr." ∅)
    as (fs1 & -> & D1 & L1 & O1); [fresh_flag|].
  simpl.
  destruct (Var_fresh "width" (flag.IntValue 600)
              "The initial width of the window." fs1)
    as (fs2 & -> & D2 & L2 & O2); [rewrite D1; fresh_flag|].
  simpl.
  destruct (Var_fresh "height" (flag.IntValue 600)
              "The initial height of the window." fs2)
    as (fs3 & -> & D3 & L3 & O3); [rewrite D2, D1; fresh_flag|].
  simpl.
  destruct (Var_fresh "auto-resize" (flag.BoolValue false)
              "If set, window will resize to size of first image." fs3)
    as (fs4 & -> & D4 & L4 & O4); [rewrite D3, D2, D1; fresh_flag|].
  simpl.
  destruct (Var_fresh "increment" (flag.IntValue 20)
              "The increment (in pixels) used to pan the image." fs4)
    as (fs5 & -> & D5 & L5 & O5); [rewrite D4, D3, D2, D1; fresh_flag|].
  simpl.
  destruct (Var_fresh "profile" (flag.StringValue EmptyString)
              "If set, a CPU profile will be saved to the file name provided."
              fs5)
    as (fs6 & -> & D6 & L6 & O6); [rewrite D5, D4, D3, D2, D1; fresh_flag|].
  exists fs6. split; [done|].
  split.
  { rewrite D6, D5, D4, D3, D2, D1. unfold flag_names.
    apply set_eq. intros x. flag_membership. tauto. }
  rewrite !O6, !O5, !O4 by done.
  split; [by rewrite !O3, !O2 by done|].
  split; [by rewrite !O3 by done|done].
Qed.

Lemma flag_names_size : size flag_names = 6%nat.
Proof.
  unfold flag_names.
  repeat (rewrite size_union
            by (apply disjoint_singleton_r; fresh_flag)).
  by rewrite !size_singleton.
Qed.

(** C7: [init] defines the six flags [v], [width], [height],
    [auto-resize], [increment] and [profile] and no other. The arguments
    that follow are files or directories, one or more of them: with at
    least one the usage message is not printed, with none the run ends
    in the usage message. [findFiles] expands every argument, in order:
    a file to itself, a directory to [dirImages], an argument that
    [os.Stat] refuses to nothing and a line of the log. A run that gets
    past the checks on the flags handles every argument: it logs the
    failure of each argument that [os.Stat] refuses, and it logs the
    outcome of opening and decoding every file that each of the other
    arguments expands to. *)
Theorem cli_flags_and_arguments Join basename os c s evs :
  (∃ fs, init_flags = Some fs ∧ dom fs = flag_names
         ∧ size (dom fs) = 6%nat)
  ∧ (Args c ≠ [] → no_usage (program Join basename os c s evs).1)
  ∧ (Args c = [] → ¬ zero_size c → ¬ profile_fails os c →
     UsageLine ∈ (program Join basename os c s evs).1
     ∧ (program Join basename os c s evs).2 = inr (Exit 1))
  ∧ (∀ f, (findFiles Join os [f]).2
          = match os_Stat os f with
            | StatErr _ => []
            | StatOk true => dirImages Join os f
            | StatOk false => [f]
            end)
  ∧ (∀ args, findFiles Join os args
             = (flat_map (arg_log os) args,
                flat_map (arg_files Join os) args))
  ∧ (Args c ≠ [] → ¬ zero_size c → ¬ profile_fails os c →
     ∀ f, f ∈ Args c →
       (∀ err, os_Stat os f = StatErr err →
          Log (LogCantAccess f err) ∈ (program Join basename os c s evs).1)
       ∧ (∀ p, p ∈ arg_files Join os f →
            p ∈ main_files Join os c
            ∧ Log (line_of os p) ∈ (program Join basename os c s evs).1)).
Proof.
  split; [|split; [|split; [|split; [|split]]]].
  - destruct init_flags_defined as (fs & E & D & _).
    exists fs. split; [done|]. split; [done|].
    rewrite D. apply flag_names_size.
  - apply program_no_usage.
  - intros Hargs Hz Hp. rewrite program_no_args by done. simpl.
    split; [|done]. apply elem_of_app. right.
    do 2 apply list_elem_of_further. by left.
  - intros f. rewrite findFiles_cons.
    destruct (os_Stat os f) as [err|[]]; simpl; [done| |done].
    by rewrite app_nil_r.
  - apply findFiles_flat_map.
  - intros Hargs Hz Hp f Hf.
    destruct (start_profile_returns os c Hp) as [profiling Hprof].
    rewrite (program_with_args _ _ _ _ _ _ profiling) by done.
    unfold startup_output, decode_log, main_files.
    rewrite findFiles_flat_map. simpl.
    apply list_elem_of_In in Hf. split.
    + intros err Hstat. rewrite !elem_of_app. left. right. left.
      apply list_elem_of_In, in_flat_map. exists f. split; [done|].
      unfold arg_log. rewrite Hstat. by left.
    + intros p Hp'.
      assert (Hin : p ∈ flat_map (arg_files Join os) (Args c)).
      { apply list_elem_of_In, in_flat_map. exists f. split; [done|].
        by apply list_elem_of_In. }
      split; [done|]. rewrite !elem_of_app. left. right. right.
      rewrite decodeImages_under_log_perm.
      apply list_elem_of_fmap. by exists p.
Qed.

Lemma cli_flags_and_arguments_witness :
  no_usage (program demo_Join demo_basename demo_os mixed_cmdline
              demo_screen some_events).1
  ∧ UsageLine ∈ (program demo_Join demo_basename demo_os no_args_cmdline
                   demo_screen some_events).1
  ∧ Log (LogCantAccess "missing" "no such file or directory")
    ∈ (program demo_Join demo_basename demo_os mixed_cmdline
         demo_screen some_events).1
  ∧ Log (LogDecoded "dir/c.gif" "png")
    ∈ (program demo_Join demo_basename demo_os mixed_cmdline
         demo_screen some_events).1
  ∧ Log (LogDecoded "y.gif" "png")
    ∈ (program demo_Join demo_basename demo_os mixed_cmdline
         demo_screen some_events).1.
Proof.
  destruct (cli_flags_and_arguments demo_Join demo_basename demo_os
              mixed_cmdline demo_screen some_events)
    as (_ & Hquiet & _ & _ & _ & Hargs).
  destruct (cli_flags_and_arguments demo_Join demo_basename demo_os
              no_args_cmdline demo_screen some_events)
    as (_ & _ & Husage & _).
  assert (Hne : Args mixed_cmdline ≠ []) by discriminate.
  assert (Hz : ¬ zero_size mixed_cmdline)
    by (vm_compute; intros [H|H]; discriminate).
  assert (Hp : ¬ profile_fails demo_os mixed_cmdline)
    by (vm_compute; intros [H _]; by apply H).
  split; [exact (Hquiet Hne)|]. split.
  { apply Husage.
    - reflexivity.
    - vm_compute. intros [H|H]; discriminate.
    - vm_compute. intros [H _]. by apply H. }
  assert (H1 : "missing" ∈ Args mixed_cmdline)
    by (apply list_elem_of_further; by left).
  assert (H2 : "dir" ∈ Args mixed_cmdline)
    by (do 2 apply list_elem_of_further; by left).
  assert (H3 : "y.gif" ∈ Args mixed_cmdline)
    by (do 3 apply list_elem_of_further; by left).
  destruct (Hargs Hne Hz Hp "missing" H1) as [Hmissing _].
  destruct (Hargs Hne Hz Hp "dir" H2) as [_ Hdir].
  destruct (Hargs Hne Hz Hp "y.gif" H3) as [_ Hfile].
  split; [exact (Hmissing _ eq_refl)|]. split.
  - refine (proj2 (Hdir "dir/c.gif" _)).
    vm_compute. do 3 apply list_elem_of_further. by left.
  - refine (proj2 (Hfile "y.gif" _)). by left.
Defined.

(** * Further properties *)

(** ** Keys *)

Lemma step_right_mod n k :
  0 < n → 0 <= k < n → (if k =? n - 1 then 0 else k + 1) = (k + 1) mod n.
Proof.
  intros Hn Hk. destruct (Z.eqb_spec k (n - 1)) as [->|Hne].
  - replace (n - 1 + 1) with n by lia. by rewrite Z_mod_same_full.
  - rewrite Z.mod_small; lia.
Qed.

Lemma step_left_mod n k :
  0 < n → 0 <= k < n → (if k =? 0 then n - 1 else k - 1) = (k - 1) mod n.
Proof.
  intros Hn Hk. destruct (Z.eqb_spec k 0) as [->|Hne].
  - apply (Z.mod_unique _ _ (-1)); lia.
  - rewrite Z.mod_small; lia.
Qed.

Lemma arrow_press_index imgs st right :
  0 < len imgs <= int_max → index_ok imgs st →
  handle imgs st (arrow_press right)
  = ([WSendPaint],
     Next {| w := set_orig image.ZP (w st);
             i := (i st + (if right then 1 else -1)) mod len imgs |}).
Proof.
  intros Hn Hi. destruct right; unfold arrow_press.
  - rewrite right_arrow_index by done. rewrite step_right_mod; [done|lia|done].
  - rewrite left_arrow_index by done. rewrite step_left_mod; [done|lia|done].
Qed.

(** X1: any sequence of arrow presses leaves the index at the start
    index plus the number of right presses minus the number of left
    presses, modulo the number of images; every press asks for a
    repaint. *)
Theorem arrow_presses_net_steps imgs arrows : ∀ st,
  0 < len imgs <= int_max → index_ok imgs st →
  ∃ st', loop imgs st (arrow_press <$> arrows)
         = (replicate (length arrows) WSendPaint, Next st')
         ∧ i st' = (i st + net_steps arrows) mod len imgs.
Proof.
  induction arrows as [|right arrows IH]; intros st Hn Hi.
  - exists st. split; [done|]. simpl. rewrite Z.add_0_r.
    unfold index_ok in Hi. rewrite Z.mod_small; lia.
  - rewrite fmap_cons, loop_cons, arrow_press_index by done.
    edestruct (IH {| w := set_orig image.ZP (w st);
                     i := (i st + (if right then 1 else -1)) mod len imgs |})
      as (st' & El & Ei); [done| |].
    { unfold index_ok. simpl. apply Z.mod_pos_bound. lia. }
    exists st'. rewrite El. split; [done|].
    rewrite Ei. simpl. rewrite Zplus_mod_idemp_l. f_equal. lia.
Qed.

Lemma arrow_presses_net_steps_witness :
  ∃ st', loop two_images at_last_image
           (arrow_press <$> [true; true; false; true])
         = (replicate 4 WSendPaint, Next st')
         ∧ i st' = 1.
Proof.
  apply (arrow_presses_net_steps two_images [true; true; false; true]
           at_last_image).
  - vm_compute. split; [reflexivity | discriminate].
  - vm_compute. split; [discriminate | reflexivity].
Defined.

Lemma handle_quit imgs st k :
  is_quit (EvKey k) → handle imgs st (EvKey k) = ([], Return).
Proof.
  simpl. unfold on_key. intros [H|H]; by rewrite H.
Qed.

(** X2: a key event with code Escape or Q ends the loop whatever its
    direction, press or release, and nothing that is delivered after it
    is handled. *)
Theorem quit_key_ends_loop imgs pre : ∀ st k post,
  is_quit (EvKey k) →
  handle imgs st (EvKey k) = ([], Return)
  ∧ loop imgs st (pre ++ EvKey k :: post) = loop imgs st (pre ++ [EvKey k])
  ∧ ∀ st', (loop imgs st (pre ++ EvKey k :: post)).2 ≠ Next st'.
Proof.
  induction pre as [|e pre IH]; intros st k post Hq.
  - split; [by apply handle_quit|].
    simpl app. rewrite !loop_cons, (handle_quit imgs st k Hq). done.
  - split; [by apply handle_quit|].
    change ((e :: pre) ++ EvKey k :: post) with (e :: (pre ++ EvKey k :: post)).
    change ((e :: pre) ++ [EvKey k]) with (e :: (pre ++ [EvKey k])).
    rewrite !loop_cons.
    destruct (handle imgs st e) as [acts [st1| |err|]]; try done.
    destruct (IH st1 k post Hq) as (_ & -> & Hnext).
    split; [done|]. intros st'.
    destruct (loop imgs st1 (pre ++ [EvKey k])) as [acts' c] eqn:El.
    simpl. intros ->.
    destruct (IH st1 k [] Hq) as (_ & _ & Hnext').
    apply (Hnext' st'). by rewrite El.
Qed.

Lemma quit_key_ends_loop_witness :
  loop two_images at_last_image
    ([press key.CodeLeftArrow] ++ EvKey release_of_Q :: some_events)
  = ([WSendPaint], Return).
Proof.
  assert (Hq : is_quit (EvKey release_of_Q)) by (right; reflexivity).
  destruct (quit_key_ends_loop two_images [press key.CodeLeftArrow]
              at_last_image release_of_Q some_events Hq) as (_ & E & _).
  rewrite E. reflexivity.
Defined.

(** X3: a key event that is not a press, and a press of a key other than
    Escape, Q, the arrows, R and Z, change nothing and ask for no
    repaint. *)
Theorem inert_key_events imgs st k :
  ¬ is_quit (EvKey k) →
  key.Direction_ k ≠ key.DirPress ∨ (∃ c, key.Code_ k = key.CodeOther c) →
  handle imgs st (EvKey k) = ([], Next st).
Proof.
  intros Hq H. destruct k as [code dir]. simpl in *. unfold on_key. simpl.
  destruct H as [H|[c ->]]; [|done].
  rewrite bool_decide_eq_false_2 by done.
  destruct code; simpl; try done; destruct Hq; eauto.
Qed.

Lemma inert_key_events_witness :
  handle two_images at_last_image
    (EvKey {| key.Code_ := key.CodeRightArrow;
              key.Direction_ := key.DirRelease |})
  = ([], Next at_last_image).
Proof.
  apply (inert_key_events two_images at_last_image).
  - simpl. intros [H|H]; discriminate.
  - left. simpl. discriminate.
Defined.

(** ** The mouse *)

Lemma loop_app imgs evs1 : ∀ st evs2,
  loop imgs st (evs1 ++ evs2)
  = match loop imgs st evs1 with
    | (a1, Next st1) =>
        let '(a2, c) := loop imgs st1 evs2 in (a1 ++ a2, c)
    | r => r
    end.
Proof.
  induction evs1 as [|e evs1 IH]; intros st evs2.
  - simpl. by destruct (loop imgs st evs2).
  - change ((e :: evs1) ++ evs2) with (e :: (evs1 ++ evs2)).
    rewrite !loop_cons.
    destruct (handle imgs st e) as [acts [st'| |err|]]; try done.
    rewrite IH.
    destruct (loop imgs st' evs1) as [a1 [st1| |err|]]; try done.
    destruct (loop imgs st1 evs2) as [a2 c]. by rewrite app_assoc.
Qed.

Lemma motions_idle imgs es st :
  Forall is_motion es → pan (w st) = false →
  loop imgs st (EvMouse <$> es) = ([], Next st).
Proof.
  intros Hes Hp. induction Hes as [|e es He _ IH]; [done|].
  rewrite fmap_cons, loop_cons. simpl handle. unfold on_mouse.
  rewrite He, Hp. by rewrite IH.
Qed.

Lemma motions_dragging imgs es : ∀ st,
  Forall is_motion es → pan (w st) = true → point_in_int (orig (w st)) →
  loop imgs st (EvMouse <$> es)
  = (replicate (length es) WSendPaint,
     Next {| w := {| b := b (w st);
                     orig := moved (orig (w st)) (mouse_ (w st))
                               (List.last (pos_of <$> es) (mouse_ (w st)));
                     pan := true;
                     mouse_ := List.last (pos_of <$> es) (mouse_ (w st)) |};
             i := i st |}).
Proof.
  induction es as [|e es IH]; intros st Hes Hp Ho.
  - destruct st as [[b0 o p m] i0]. simpl in *. subst p.
    by rewrite moved_nowhere.
  - apply Forall_cons in Hes as [He Hes].
    rewrite fmap_cons, loop_cons, (motion_while_dragging imgs st e He Hp).
    rewrite IH; [|done|done|apply moved_in_int].
    rewrite fmap_cons, last_cons_default. simpl.
    by rewrite moved_twice.
Qed.

(** X4: a whole drag, that is a left-button press at [p0], motions, and
    a left-button release, moves the pan offset by the displacement from
    [p0] to the last motion, asks for one repaint per motion, and ends
    with the drag flag clear and the recorded position back at (0,0);
    the index and the buffer are untouched, the position of the release
    plays no part, and motions that follow the release change nothing. *)
Theorem whole_drag imgs st p0 es pr es' :
  Forall is_motion es → Forall is_motion es' →
  point_in_int (orig (w st)) →
  loop imgs st
    (EvMouse <$> (left_button mouse.DirPress p0 :: es)
                   ++ left_button mouse.DirRelease pr :: es')
  = (replicate (length es) WSendPaint,
     Next {| w := {| b := b (w st);
                     orig := moved (orig (w st)) p0
                               (List.last (pos_of <$> es) p0);
                     pan := false;
                     mouse_ := image.ZP |};
             i := i st |}).
Proof.
  intros Hes Hes' Ho. destruct p0 as [x0 y0].
  rewrite fmap_app, !fmap_cons. rewrite <- app_comm_cons, loop_cons.
  simpl handle. unfold on_mouse; simpl.
  rewrite loop_app, motions_dragging by done. simpl.
  rewrite motions_idle by done. by rewrite app_nil_r.
Qed.

Lemma whole_drag_witness :
  loop two_images at_last_image
    (EvMouse <$> (left_button mouse.DirPress
                    {| image.X := 10; image.Y := 10 |} :: a_drag)
                   ++ left_button mouse.DirRelease image.ZP :: a_drag)
  = ([WSendPaint; WSendPaint],
     Next {| w := {| b := image.ZP;
                     orig := {| image.X := 2; image.Y := 19 |};
                     pan := false; mouse_ := image.ZP |};
             i := 1 |}).
Proof.
  apply (whole_drag two_images at_last_image
           {| image.X := 10; image.Y := 10 |} a_drag image.ZP a_drag).
  - repeat constructor.
  - repeat constructor.
  - vm_compute. repeat split; discriminate.
Defined.

(** X5: a press or a release of a button other than the left one changes
    nothing: it neither starts nor ends a drag. *)
Theorem other_buttons_ignored imgs st m :
  mouse.Button_ m ≠ mouse.ButtonLeft → ¬ is_motion m →
  handle imgs st (EvMouse m) = ([], Next st).
Proof.
  intros Hb Hm. simpl. unfold on_mouse. unfold is_motion in Hm.
  destruct (mouse.Direction_ m); [done| |]; by case_decide.
Qed.

Lemma other_buttons_ignored_witness :
  handle two_images at_last_image
    (EvMouse {| mouse.X := 3; mouse.Y := 4;
                mouse.Button_ := mouse.ButtonRight;
                mouse.Direction_ := mouse.DirPress |})
  = ([], Next at_last_image).
Proof.
  apply (other_buttons_ignored two_images at_last_image); simpl; discriminate.
Defined.

Ltac frame_case :=
  repeat split;
  first [ by repeat right
        | by left; eauto
        | by left; left
        | by left; right
        | by right; left
        | by right; right; left; eauto ].

(** X6: what one event can change. The index changes only on an arrow
    press; the pan offset only on an arrow press, a press of Z or a
    motion while dragging; the drag flag and the recorded position only
    on a mouse event; the buffer only on a size event. *)
Theorem handle_frame imgs st e acts st' :
  handle imgs st e = (acts, Next st') →
  (is_arrow_press e ∨ i st' = i st)
  ∧ (is_arrow_press e ∨ e = press key.CodeZ ∨ is_drag_motion st e
     ∨ orig (w st') = orig (w st))
  ∧ ((∃ m, e = EvMouse m)
     ∨ (pan (w st') = pan (w st) ∧ mouse_ (w st') = mouse_ (w st)))
  ∧ ((∃ z, e = EvSize z) ∨ b (w st') = b (w st)).
Proof.
  unfold is_arrow_press, is_drag_motion, press.
  destruct e as [m|k|p|z| |err|d]; simpl.
  - unfold on_mouse.
    destruct (mouse.Direction_ m) eqn:Ed; repeat case_decide;
      try destruct (pan (w st)) eqn:Ep; intros [= <- <-]; simpl;
      frame_case.
  - destruct k as [code dir]. unfold on_key; simpl.
    destruct code, dir; simpl; repeat case_match; intros [= <- <-]; simpl;
      frame_case.
  - unfold on_paint. repeat case_match; intros [= <- <-]; frame_case.
  - unfold on_size. repeat case_match; intros [= <- <-]; simpl; frame_case.
  - intros [= <- <-]. frame_case.
  - intros [= <- <-]. frame_case.
  - intros [= <- <-]. frame_case.
Qed.

Lemma handle_frame_witness :
  (is_arrow_press (press key.CodeZ) ∨ i at_last_image = i at_last_image)
  ∧ ((∃ z, press key.CodeZ = EvSize z)
     ∨ b (w (Build_loop_state (set_orig image.ZP (w at_last_image)) 1))
       = b (w at_last_image)).
Proof.
  destruct (handle_frame two_images at_last_image (press key.CodeZ)
              [WResize {| image.X := 8; image.Y := 6 |}]
              {| w := set_orig image.ZP (w at_last_image); i := 1 |}
              eq_refl) as (H1 & _ & _ & H4).
  split; [exact H1 | exact H4].
Defined.

(** ** Arguments, directories and names *)

(** X7: [findFiles] handles its arguments one by one and in order: the
    slice returned is the concatenation of what each argument adds (the
    argument itself for a file, [dirImages] for a directory, nothing
    when [os.Stat] fails) and the log holds one line per argument whose
    [os.Stat] fails, in the order of the arguments. *)
Theorem findFiles_per_argument Join os args :
  findFiles Join os args
  = (flat_map (arg_log os) args, flat_map (arg_files Join os) args).
Proof.
  induction args as [|f args IH]; [done|].
  rewrite findFiles_cons, IH. simpl. unfold arg_log, arg_files.
  by destruct (os_Stat os f) as [err|[]].
Qed.

(** X8: arguments that are all plain files come back as they are, in
    the same order, duplicates included, and nothing is logged. *)
Theorem findFiles_plain_files Join os args :
  Forall (fun f => os_Stat os f = StatOk false) args →
  findFiles Join os args = ([], args).
Proof.
  intros H. induction H as [|f args Hf _ IH]; [done|].
  by rewrite findFiles_cons, Hf, IH.
Qed.

Lemma findFiles_plain_files_witness :
  findFiles demo_Join demo_os ["y.gif"; "x.png"; "y.gif"]
  = ([], ["y.gif"; "x.png"; "y.gif"]).
Proof.
  apply (findFiles_plain_files demo_Join demo_os ["y.gif"; "x.png"; "y.gif"]).
  repeat constructor.
Defined.

(** X9: a directory that [os.Stat] accepts but [os.Open] refuses is
    skipped without a word: it adds no file and, unlike an argument whose
    [os.Stat] fails, no line to the log. *)
Theorem unreadable_directory_is_silent Join os pre f post :
  os_Stat os f = StatOk true → is_Some (os_Open os f) →
  findFiles Join os (pre ++ f :: post) = findFiles Join os (pre ++ post).
Proof.
  intros Hstat [err Hopen].
  rewrite !findFiles_app, findFiles_cons, Hstat. simpl.
  unfold dirImages, readdir. by rewrite Hopen.
Qed.

Lemma unreadable_directory_is_silent_witness :
  findFiles demo_Join sealed_os ["x.png"; "sealed"; "y.gif"]
  = ([], ["x.png"; "y.gif"]).
Proof.
  refine (eq_trans (unreadable_directory_is_silent demo_Join sealed_os
                      ["x.png"] "sealed" ["y.gif"] _ _) _).
  - reflexivity.
  - eexists. reflexivity.
  - reflexivity.
Defined.

Lemma ext_scan_nil r : ∀ suffix,
  ¬ In filepath.sep r →
  filepath.ext_scan r suffix = [] ↔ ¬ In filepath.dot r.
Proof.
  induction r as [|c r IH]; intros suffix Hsep; simpl.
  - tauto.
  - destruct (decide (c = filepath.sep)) as [->|Hc]; [simpl in Hsep; tauto|].
    destruct (decide (c = filepath.dot)) as [->|Hd].
    + split; [done|]. intros H. destruct H. by left.
    + rewrite IH by (simpl in Hsep; tauto).
      split; [|tauto]. intros H [E|E]; [congruence|tauto].
Qed.

Lemma Ext_empty_iff f :
  ¬ occurs filepath.sep f →
  filepath.Ext f = EmptyString ↔ ¬ occurs filepath.dot f.
Proof.
  unfold occurs, filepath.Ext. intros Hsep.
  transitivity (filepath.ext_scan (rev (list_ascii_of_string f)) [] = []).
  - destruct (filepath.ext_scan _ _); simpl; split; congruence.
  - rewrite ext_scan_nil by (by rewrite <- in_rev). by rewrite <- in_rev.
Qed.

(** X10: when the names read from a directory hold no path separator,
    [dirImages] keeps exactly those in which a dot occurs, hidden files
    and names that end in a dot included, whatever kind of file they
    name. *)
Theorem dirImages_keeps_dotted_names Join os dir :
  Forall (fun f => ¬ occurs filepath.sep f) (readdir os dir) →
  ∀ p, p ∈ dirImages Join os dir
       ↔ ∃ f, f ∈ readdir os dir ∧ occurs filepath.dot f ∧ p = Join dir f.
Proof.
  intros Hnames p. unfold dirImages. rewrite dirImages_loop. simpl.
  rewrite list_elem_of_fmap. rewrite Forall_forall in Hnames.
  split.
  - intros (f & -> & [Hext Hf]%list_elem_of_filter). exists f.
    split; [done|]. split; [|done].
    destruct (in_dec ascii_dec filepath.dot (list_ascii_of_string f))
      as [|Hno]; [done|].
    destruct Hext. apply Ext_empty_iff; [|done]. by apply Hnames.
  - intros (f & Hf & Hdot & ->). exists f. split; [done|].
    apply list_elem_of_filter. split; [|done].
    intros Hext. apply Ext_empty_iff in Hext; [done|]. by apply Hnames.
Qed.

Lemma dirImages_keeps_dotted_names_witness :
  "dir/.hidden" ∈ dirImages demo_Join demo_os "dir"
  ∧ ¬ "dir/README" ∈ dirImages demo_Join demo_os "dir".
Proof.
  assert (E : readdir demo_os "dir"
              = ["a.png"; "README"; ".hidden"; "b."; "c.gif"]) by reflexivity.
  assert (H : Forall (fun f => ¬ occurs filepath.sep f) (readdir demo_os "dir")).
  { rewrite E. repeat constructor; intros H; vm_compute in H;
      intuition discriminate. }
  split.
  - apply (dirImages_keeps_dotted_names demo_Join demo_os "dir" H).
    exists ".hidden". rewrite E. split; [|split; [|reflexivity]].
    + do 2 apply list_elem_of_further. by left.
    + left. reflexivity.
  - intros Hin.
    apply (dirImages_keeps_dotted_names demo_Join demo_os "dir" H) in Hin.
    destruct Hin as (f & Hf & Hdot & Hp). rewrite E in Hf.
    repeat (apply elem_of_cons in Hf as [->|Hf]; [try discriminate|]).
    + vm_compute in Hdot. intuition discriminate.
    + by apply elem_of_nil in Hf.
Defined.

(** ** The decoder: steps, workers and log *)

(** X11: whatever the schedule, the threads of [decodeImages] make at
    most [6 * n + 2] steps on [n] files; with the absence of deadlock
    this means that the call returns under every schedule that keeps
    running a thread that can move. *)
Theorem decodeImages_bounded_steps basename os files sched :
  (moves basename os files sched (d_init files) ≤ 6 * length files + 2)%nat.
Proof.
  rewrite <- (weight_init files).
  apply moves_le_weight, inv_init.
Qed.

(** X12: when [decodeImages] returns, under any schedule, every worker
    has returned, and the channel of a file is closed exactly when the
    file could not be decoded; the channel of a decoded file is left
    open. *)
Theorem decodeImages_leaves_no_worker basename os files sched names imgs :
  d_main (run basename os files sched (d_init files)) = MReturn names imgs →
  Forall (fun g => g = GDone)
    (gos (run basename os files sched (d_init files)))
  ∧ ∀ i f, files !! i = Some f →
      imgChans (run basename os files sched (d_init files)) !! i
      = Some (if decide (decodes os f) then ChOpen else ChClosed).
Proof.
  intros Em.
  pose proof (run_inv basename os files sched _ (inv_init _ _ files)) as Hinv.
  split.
  - apply Forall_lookup. intros i g Hg.
    assert (Hi : (i < length files)%nat).
    { rewrite <- (inv_gos _ _ _ _ Hinv). by eapply lookup_lt_Some. }
    destruct (lookup_lt_is_Some_2 files i Hi) as [f Hf].
    destruct (returned_all_done _ _ _ _ _ _ Hinv Em i f Hf) as [Hd _].
    congruence.
  - intros i f Hf.
    by destruct (returned_all_done _ _ _ _ _ _ Hinv Em i f Hf).
Qed.

Lemma decodeImages_leaves_no_worker_witness :
  gos (run demo_basename demo_os ["x.png"; "bad.png"] a_schedule
         (d_init ["x.png"; "bad.png"]))
  = [GDone; GDone]
  ∧ imgChans (run demo_basename demo_os ["x.png"; "bad.png"] a_schedule
                (d_init ["x.png"; "bad.png"]))
    = [ChOpen; ChClosed].
Proof.
  destruct (decodeImages_leaves_no_worker demo_basename demo_os
              ["x.png"; "bad.png"] a_schedule ["x.png"] [demo_image 5]
              eq_refl) as [_ _].
  split; reflexivity.
Defined.

(** X13: when [decodeImages] returns, the log holds exactly one line per
    file given, duplicates counted: the error of [os.Open], or the
    message that the file could not be decoded, or the message that it
    was decoded. The order of the lines depends on the schedule. This
    holds under the first-enabled schedule, under every schedule that
    reaches the [return], and for the call as [main] makes it, whatever
    the scheduler does. *)
Theorem decodeImages_logs_each_file_once basename os files :
  (decodeImages basename os files).1
  ≡ₚ (fun f => Log (line_of os f)) <$> files
  ∧ (∀ sched names imgs,
       d_main (run basename os files sched (d_init files))
       = MReturn names imgs →
       d_log (run basename os files sched (d_init files))
       ≡ₚ (fun f => Log (line_of os f)) <$> files)
  ∧ ∀ sched,
      (decodeImages_under basename os sched files).1
      ≡ₚ (fun f => Log (line_of os f)) <$> files.
Proof.
  split; [apply decodeImages_log_perm|].
  split; [|intros sched; apply decodeImages_under_log_perm].
  intros sched names imgs Em.
  eapply returned_log; [| |exact Em].
  - apply run_inv, inv_init.
  - apply run_log_ok; [apply inv_init|apply log_ok_init].
Qed.

Lemma decodeImages_logs_each_file_once_witness :
  d_log (run demo_basename demo_os ["x.png"; "bad.png"] a_schedule
           (d_init ["x.png"; "bad.png"]))
  ≡ₚ [Log (LogDecoded "x.png" "png");
      Log (LogDecodeErr "bad.png" "image: unknown format")].
Proof.
  destruct (decodeImages_logs_each_file_once demo_basename demo_os
              ["x.png"; "bad.png"]) as [_ [H _]].
  exact (H a_schedule ["x.png"] [demo_image 5] eq_refl).
Defined.

(** X14: the result of [decodeImages] on a list of files put end to end
    is the result on the first followed by the result on the second, and
    on no file at all it is empty. *)
Theorem decodeImages_concatenates basename os files1 files2 :
  (decodeImages basename os (files1 ++ files2)).2
  = ((decodeImages basename os files1).2.1
       ++ (decodeImages basename os files2).2.1,
     (decodeImages basename os files1).2.2
       ++ (decodeImages basename os files2).2.2)
  ∧ decodeImages basename os [] = ([], ([], [])).
Proof.
  split; [|reflexivity].
  destruct (decodeImages_decoded basename os (files1 ++ files2)) as [E1 E2].
  destruct (decodeImages_decoded basename os files1) as [-> ->].
  destruct (decodeImages_decoded basename os files2) as [-> ->].
  rewrite decoded_app, fmap_app in E1. rewrite decoded_app, fmap_app in E2.
  rewrite <- E1, <- E2. by destruct (decodeImages _ _ _).2.
Qed.

(** ** The output of a run *)

Lemma index_lookup {A} (s : list A) (k : Z) (a : A) :
  index s k = Some a → a ∈ s.
Proof.
  unfold index. destruct (_ && _); [|done].
  intros H. by eapply list_elem_of_lookup_2.
Qed.

Lemma handle_loop_action imgs st e :
  Forall (loop_action imgs) (handle imgs st e).1.
Proof.
  destruct e as [m|k|p|z| |err|d]; simpl.
  - unfold on_mouse. repeat case_match; simpl; repeat constructor.
  - unfold on_key. destruct k as [code dir].
    destruct code; simpl; repeat case_match; simpl; repeat constructor.
  - unfold on_paint. destruct (paint.External p); [constructor|].
    destruct (index imgs (i st)) eqn:E; repeat constructor.
    simpl. by eapply index_lookup.
  - unfold on_size. destruct (size.NewBuffer z); [by repeat constructor|].
    destruct (index imgs (i st)) eqn:E; repeat constructor.
    simpl. by eapply index_lookup.
  - constructor.
  - by repeat constructor.
  - by repeat constructor.
Qed.

Lemma loop_loop_action imgs evs : ∀ st,
  Forall (loop_action imgs) (loop imgs st evs).1.
Proof.
  induction evs as [|e evs IH]; intros st; [constructor|].
  rewrite loop_cons. pose proof (handle_loop_action imgs st e) as Hh.
  destruct (handle imgs st e) as [acts c]. simpl in Hh.
  destruct c as [st'| | |]; try done.
  specialize (IH st'). destruct (loop imgs st' evs) as [acts' c'].
  simpl in *. by apply Forall_app.
Qed.

(** The callback with at least one image, spelled out. *)
Lemma callback_with_images c s names img0 rest evs :
  length names = length (img0 :: rest) →
  callback c s names (img0 :: rest) evs
  = match newWindow s (window_size_of c (img0 :: rest)) with
    | inl err =>
        ((window_size c names (img0 :: rest)).1 ++ [Log (LogErr err)],
         inr (Exit 1))
    | inr w0 =>
        ((window_size c names (img0 :: rest)).1
           ++ [WFill; WDisplay img0 image.ZP]
           ++ (run_loop (img0 :: rest) {| w := w0; i := 0 |} evs).1,
         (run_loop (img0 :: rest) {| w := w0; i := 0 |} evs).2)
    end.
Proof.
  intros Hlen. unfold callback.
  set (imgs := img0 :: rest) in *.
  assert (Hn : 0 < len imgs) by apply len_cons_pos.
  replace (len imgs =? 0) with false by (symmetry; apply Z.eqb_neq; lia).
  destruct (window_size_returns c names imgs) as (acts & Ews & _);
    [done|done|].
  rewrite (bind_returns (mret tt) _ tt) by done.
  rewrite (bind_returns _ _ _ (f_equal snd Ews : _.2 = inl _)).
  rewrite Ews. simpl fst.
  pose proof (newWindow_fails s (window_size_of c imgs)) as Hw.
  destruct (newWindow s (window_size_of c imgs)) as [err|w0].
  - done.
  - destruct Hw as [_ ->].
    assert (E0 : at_index imgs 0 = mret img0) by reflexivity.
    cbn -[loop run_loop at_index]. rewrite E0. cbn -[loop run_loop].
    by destruct (run_loop _ _ _).
Qed.

Lemma start_profile_flag os c profiling :
  (start_profile os c).2 = inl profiling →
  profiling = (0 <? Z.of_nat (String.length (flagProfile c))).
Proof.
  unfold start_profile. destruct (0 <? _); [|by intros [= <-]].
  destruct (os_Create os (flagProfile c)); [done|]. by intros [= <-].
Qed.

(** X15: when no file can be shown, because every argument fails
    [os.Stat] or no file decodes, the run writes its start-up output,
    enters [driver.Main], and the callback at once logs "No images
    specified could be shown. Quitting..." and exits with status 1: no
    window is asked for and no call is made on one. The start-up output
    ends with one line per file given to [decodeImages], in the order in
    which the scheduler let the workers log. *)
Theorem nothing_to_show_is_fatal Join basename os c s evs :
  ¬ zero_size c → ¬ profile_fails os c → Args c ≠ [] →
  main_imgs Join basename os c = [] →
  program Join basename os c s evs
  = (startup_output Join basename os c
       ++ [DriverMain;
           Log (LogMsg "No images specified could be shown. Quitting...")],
     inr (Exit 1))
  ∧ decode_log Join basename os c
    ≡ₚ (fun f => Log (line_of os f)) <$> main_files Join os c.
Proof.
  intros Hz Hp Hargs Himgs.
  split; [|apply decodeImages_under_log_perm].
  destruct (start_profile_returns os c Hp) as [profiling Hprof].
  rewrite (program_with_args _ _ _ _ _ _ profiling) by done.
  rewrite Himgs. simpl. done.
Qed.

Lemma nothing_to_show_is_fatal_witness :
  program demo_Join demo_basename racy_os nothing_cmdline demo_screen
    some_events
  = ([Log (LogCantAccess "missing" "no such file or directory");
      Log (LogOpenErr "permission denied");
      Log (LogDecodeErr "bad.png" "image: unknown format");
      DriverMain;
      Log (LogMsg "No images specified could be shown. Quitting...")],
     inr (Exit 1))
  ∧ program demo_Join demo_basename demo_os nothing_cmdline demo_screen
      some_events
    = ([Log (LogCantAccess "missing" "no such file or directory");
        Log (LogDecodeErr "bad.png" "image: unknown format");
        Log (LogOpenErr "permission denied");
        DriverMain;
        Log (LogMsg "No images specified could be shown. Quitting...")],
       inr (Exit 1)).
Proof.
  split.
  - apply (nothing_to_show_is_fatal demo_Join demo_basename racy_os
             nothing_cmdline demo_screen some_events).
    + vm_compute. intros [H|H]; discriminate.
    + vm_compute. intros [H _]. by apply H.
    + discriminate.
    + reflexivity.
  - apply (nothing_to_show_is_fatal demo_Join demo_basename demo_os
             nothing_cmdline demo_screen some_events).
    + vm_compute. intros [H|H]; discriminate.
    + vm_compute. intros [H _]. by apply H.
    + discriminate.
    + reflexivity.
Defined.

(** X16: a run that gets a window writes its start-up output, enters
    [driver.Main], writes the line of the automatic resize if that is
    asked for, then fills the window and displays the first decoded
    image with no pan, then handles the events from index 0, offset (0,0)
    and no drag; and only if the loop returns does it run the deferred
    calls. The start-up output ends with one line per file given to
    [decodeImages], in the order in which the scheduler let the workers
    log. *)
Theorem run_with_a_window Join basename os c s evs img0 rest :
  ¬ zero_size c → ¬ profile_fails os c → Args c ≠ [] →
  main_imgs Join basename os c = img0 :: rest →
  ¬ window_fails s (window_size_of c (img0 :: rest)) →
  ∃ name0 names,
    main_names Join basename os c = name0 :: names
    ∧ program Join basename os c s evs
      = (startup_output Join basename os c
           ++ [DriverMain]
           ++ (if flagAutoResize c then [Log (LogAutoResize name0)] else [])
           ++ [WFill; WDisplay img0 image.ZP]
           ++ (loop (img0 :: rest)
                 (initial_state (window_size_of c (img0 :: rest))) evs).1
           ++ match (loop (img0 :: rest)
                       (initial_state (window_size_of c (img0 :: rest)))
                       evs).2 with
              | Return => deferred_calls c
              | _ => []
              end,
         run_result (loop (img0 :: rest)
                       (initial_state (window_size_of c (img0 :: rest)))
                       evs).2)
    ∧ decode_log Join basename os c
      ≡ₚ (fun f => Log (line_of os f)) <$> main_files Join os c.
Proof.
  intros Hz Hp Hargs Himgs Hwin.
  destruct (start_profile_returns os c Hp) as [profiling Hprof].
  destruct (decodeImages_lengths basename os (main_files Join os c))
    as [Hlen _].
  fold (main_names Join basename os c) in Hlen.
  fold (main_imgs Join basename os c) in Hlen.
  rewrite (program_with_args _ _ _ _ _ _ profiling) by done.
  rewrite Himgs in *.
  destruct (main_names Join basename os c) as [|name0 names]; [done|].
  exists name0, names. split; [done|].
  split; [|apply decodeImages_under_log_perm].
  rewrite callback_with_images by done.
  pose proof (newWindow_fails s (window_size_of c (img0 :: rest))) as Hw.
  destruct (newWindow s _) as [err|w0]; [done|]. destruct Hw as [_ ->].
  assert (Ews : (window_size c (name0 :: names) (img0 :: rest)).1
                = if flagAutoResize c then [Log (LogAutoResize name0)]
                  else []).
  { unfold window_size. by destruct (flagAutoResize c). }
  rewrite Ews. unfold run_loop, initial_state, deferred_calls.
  rewrite <- (start_profile_flag os c profiling Hprof).
  destruct (loop _ _ evs) as [acts [st'| |err|]]; simpl;
    rewrite <- ?app_assoc; simpl; rewrite ?app_nil_r; try done.
  destruct profiling; by rewrite <- ?app_assoc.
Qed.

Lemma run_with_a_window_witness :
  (∃ name0 names,
     main_names demo_Join demo_basename racy_os demo_cmdline = name0 :: names
     ∧ program demo_Join demo_basename racy_os demo_cmdline demo_screen
         [press key.CodeRightArrow; press key.CodeQ]
       = ([Log (LogDecoded "y.gif" "png"); Log (LogDecoded "x.png" "png");
           DriverMain;
           WFill; WDisplay (demo_image 5) image.ZP; WSendPaint; WRelease],
          inl tt)
     ∧ [Log (LogDecoded "y.gif" "png"); Log (LogDecoded "x.png" "png")]
       ≡ₚ [Log (LogDecoded "x.png" "png"); Log (LogDecoded "y.gif" "png")])
  ∧ ∃ name0 names,
     main_names demo_Join demo_basename demo_os demo_cmdline = name0 :: names
     ∧ program demo_Join demo_basename demo_os demo_cmdline demo_screen
         [press key.CodeRightArrow; press key.CodeQ]
       = ([Log (LogDecoded "x.png" "png"); Log (LogDecoded "y.gif" "png");
           DriverMain;
           WFill; WDisplay (demo_image 5) image.ZP; WSendPaint; WRelease],
          inl tt)
     ∧ [Log (LogDecoded "x.png" "png"); Log (LogDecoded "y.gif" "png")]
       ≡ₚ [Log (LogDecoded "x.png" "png"); Log (LogDecoded "y.gif" "png")].
Proof.
  split.
  - apply (run_with_a_window demo_Join demo_basename racy_os demo_cmdline
             demo_screen [press key.CodeRightArrow; press key.CodeQ]
             (demo_image 5) [demo_image 5]).
    + vm_compute. intros [H|H]; discriminate.
    + vm_compute. intros [H _]. by apply H.
    + discriminate.
    + reflexivity.
    + intros [[x H]|[x H]]; discriminate.
  - apply (run_with_a_window demo_Join demo_basename demo_os demo_cmdline
             demo_screen [press key.CodeRightArrow; press key.CodeQ]
             (demo_image 5) [demo_image 5]).
    + vm_compute. intros [H|H]; discriminate.
    + vm_compute. intros [H _]. by apply H.
    + discriminate.
    + reflexivity.
    + intros [[x H]|[x H]]; discriminate.
Defined.

Ltac quiet_one := split; [simpl; tauto|discriminate].

Ltac quiet_list :=
  repeat (apply Forall_cons; split; [quiet_one|]); apply Forall_nil_2.

Lemma start_profile_quiet os c : Forall is_quiet (start_profile os c).1.
Proof.
  unfold start_profile. destruct (0 <? _); [|quiet_list].
  destruct (os_Create os (flagProfile c)); simpl; quiet_list.
Qed.

Lemma findFiles_quiet Join os args : Forall is_quiet (findFiles Join os args).1.
Proof.
  induction args as [|f args IH]; [constructor|].
  rewrite findFiles_cons. destruct (os_Stat os f) as [err|[]]; simpl; [|done..].
  apply Forall_cons. split; [|done]. quiet_one.
Qed.

Lemma decodeImages_quiet basename os sched files :
  Forall is_quiet (decodeImages_under basename os sched files).1.
Proof.
  rewrite decodeImages_under_log_perm. apply Forall_fmap, Forall_forall.
  intros f _. quiet_one.
Qed.

Lemma startup_quiet Join basename os c :
  Forall is_quiet (startup_output Join basename os c).
Proof.
  unfold startup_output. repeat apply Forall_app_2.
  - apply start_profile_quiet.
  - apply findFiles_quiet.
  - apply decodeImages_quiet.
Qed.

Lemma deferred_calls_flag os c profiling :
  (start_profile os c).2 = inl profiling →
  WRelease :: (if profiling then [StopCPUProfile] else []) = deferred_calls c.
Proof.
  intros H. unfold deferred_calls.
  by rewrite <- (start_profile_flag os c profiling H).
Qed.

(** The output of any run: quiet actions, then actions on the window,
    then the deferred calls if the run returns. *)
Lemma program_output Join basename os c s evs :
  ∃ pre body,
    (program Join basename os c s evs).1
    = pre ++ body
        ++ match (program Join basename os c s evs).2 with
           | inl _ => deferred_calls c
           | inr _ => []
           end
    ∧ Forall is_quiet pre
    ∧ Forall (window_action (main_imgs Join basename os c)) body.
Proof.
  destruct (decide (zero_size c)) as [Hz|Hz].
  { unfold program. rewrite init_zero by done. simpl.
    exists fatal_zero_size, []. split; [done|]. split; [quiet_list|done]. }
  destruct (start_profile os c).2 as [profiling|e] eqn:Hprof.
  2:{ exists (start_profile os c).1, [].
      assert (E : program Join basename os c s evs
                  = ((start_profile os c).1, inr e)).
      { unfold program. rewrite init_nonzero by done.
        rewrite (bind_returns _ _ tt) by done. simpl.
        unfold main. rewrite bind_unfold, Hprof.
        by destruct (start_profile os c). }
      rewrite E. simpl. rewrite app_nil_r.
      split; [done|]. split; [apply start_profile_quiet|done]. }
  assert (Hp : ¬ profile_fails os c).
  { destruct (start_profile_cases os c) as [_ H]. by rewrite Hprof in H. }
  destruct (Args c) as [|a args] eqn:Hargs.
  { rewrite program_no_args by done. simpl.
    eexists _, []. split; [by rewrite !app_nil_r|]. split; [|done].
    apply Forall_app_2; [apply start_profile_quiet|quiet_list]. }
  assert (Hne : Args c ≠ []) by (by rewrite Hargs).
  rewrite (program_with_args _ _ _ _ _ _ profiling) by done. simpl.
  destruct (decodeImages_lengths basename os (main_files Join os c))
    as [Hlen _].
  fold (main_names Join basename os c) in Hlen.
  fold (main_imgs Join basename os c) in Hlen.
  pose proof (startup_quiet Join basename os c) as Hstart.
  destruct (main_imgs Join basename os c) as [|img0 rest] eqn:Himgs.
  { simpl. eexists _, []. split; [by rewrite !app_nil_r|]. split; [|done].
    apply Forall_app_2; [done|quiet_list]. }
  assert (Hdm : Forall is_quiet [DriverMain]) by quiet_list.
  destruct (main_names Join basename os c) as [|name0 names]; [done|].
  rewrite callback_with_images by done.
  assert (Hws : Forall is_quiet
                  (window_size c (name0 :: names) (img0 :: rest)).1).
  { unfold window_size. destruct (flagAutoResize c); simpl; quiet_list. }
  destruct (newWindow s _) as [err|w0].
  { simpl. eexists _, []. split; [by rewrite !app_nil_r|]. split; [|done].
    apply Forall_app_2; [done|]. apply Forall_cons. split; [quiet_one|].
    apply Forall_app_2; [done|quiet_list]. }
  pose proof (loop_loop_action (img0 :: rest) evs {| w := w0; i := 0 |})
    as Hloop.
  unfold run_loop.
  destruct (loop (img0 :: rest) _ evs) as [acts ctl]. simpl in Hloop.
  exists (startup_output Join basename os c
            ++ [DriverMain]
            ++ (window_size c (name0 :: names) (img0 :: rest)).1),
         ([WFill; WDisplay img0 image.ZP] ++ acts).
  split; [|split].
  - destruct ctl as [st'| |err|]; simpl;
      rewrite <- ?(deferred_calls_flag os c profiling Hprof);
      rewrite <- ?app_assoc; simpl; rewrite ?app_nil_r;
      rewrite <- ?app_assoc; done.
  - rewrite !Forall_app. by repeat split.
  - apply Forall_app_2; [|by eapply Forall_impl; [exact Hloop|right]].
    apply Forall_cons. split; [by left|].
    apply Forall_cons. split; [|done]. right. simpl. by left.
Qed.

Lemma profile_requested c :
  (0 <? Z.of_nat (String.length (flagProfile c))) = true
  ↔ flagProfile c ≠ EmptyString.
Proof.
  destruct (flagProfile c); simpl; [split; done|].
  split; [done|]. intros _. apply Z.ltb_lt. lia.
Qed.

(** X17: the deferred calls run exactly when the run returns, that is
    after Escape or Q: the window is released only then, and the profile
    is stopped only then and only if one was asked for. A run that ends
    in [log.Fatal] or in [usage] releases nothing and leaves the profile
    unfinished. *)
Theorem deferred_calls_only_on_return Join basename os c s evs :
  (WRelease ∈ (program Join basename os c s evs).1
   ↔ (program Join basename os c s evs).2 = inl tt)
  ∧ (StopCPUProfile ∈ (program Join basename os c s evs).1
     ↔ (program Join basename os c s evs).2 = inl tt
       ∧ flagProfile c ≠ EmptyString).
Proof.
  destruct (program_output Join basename os c s evs)
    as (pre & body & E & Hpre & Hbody).
  rewrite E. rewrite Forall_forall in Hpre. rewrite Forall_forall in Hbody.
  rewrite !elem_of_app.
  assert (Hr1 : WRelease ∉ pre) by (intros H; by destruct (Hpre _ H) as [[] _]).
  assert (Hr2 : WRelease ∉ body) by (intros H; by destruct (Hbody _ H)).
  assert (Hs1 : StopCPUProfile ∉ pre)
    by (intros H; by destruct (Hpre _ H) as [_ []]).
  assert (Hs2 : StopCPUProfile ∉ body) by (intros H; by destruct (Hbody _ H)).
  unfold deferred_calls.
  destruct (program Join basename os c s evs).2 as [[]|e].
  - split.
    + split; [done|]. intros _. right; right. by left.
    + rewrite <- profile_requested.
      destruct (0 <? _).
      * split; [done|]. intros _. right; right. right. by left.
      * split; [|by intros [_ ?]].
        intros [?|[?|H]]; [done|done|].
        apply elem_of_cons in H as [?|H]; [done|by apply elem_of_nil in H].
  - split.
    + split; [|done]. intros [?|[?|H]]; [done|done|by apply elem_of_nil in H].
    + split; [|by intros [? _]].
      intros [?|[?|H]]; [done|done|by apply elem_of_nil in H].
Qed.

(** X18: every image that a run displays is one of the images that
    [decodeImages] returned. *)
Theorem only_decoded_images_displayed Join basename os c s evs im o :
  WDisplay im o ∈ (program Join basename os c s evs).1 →
  im ∈ main_imgs Join basename os c.
Proof.
  destruct (program_output Join basename os c s evs)
    as (pre & body & E & Hpre & Hbody).
  rewrite E. rewrite Forall_forall in Hpre. rewrite Forall_forall in Hbody.
  rewrite !elem_of_app. intros [H|[H|H]].
  - by destruct (Hpre _ H) as [[] _].
  - by destruct (Hbody _ H) as [?|?].
  - destruct (program Join basename os c s evs).2;
      [|by apply elem_of_nil in H].
    unfold deferred_calls in H.
    apply elem_of_cons in H as [?|H]; [done|].
    destruct (0 <? _); [|by apply elem_of_nil in H].
    apply elem_of_cons in H as [?|H]; [done|by apply elem_of_nil in H].
Qed.

Lemma only_decoded_images_displayed_witness :
  demo_image 5 ∈ main_imgs demo_Join demo_basename demo_os demo_cmdline.
Proof.
  apply (only_decoded_images_displayed demo_Join demo_basename demo_os
           demo_cmdline demo_screen [] (demo_image 5) image.ZP).
  vm_compute. do 4 apply list_elem_of_further. by left.
Defined.

(** X19: a run never panics: no index expression of [main] is out of
    range, [imgs[0]] and [names[0]] of the automatic resize included,
    and every run ends in an exit, returns, or waits for an event. *)
Theorem program_never_panics Join basename os c s evs :
  len (main_files Join os c) <= int_max →
  (program Join basename os c s evs).2 ≠ inr Panic.
Proof.
  intros Hmax Hp.
  pose proof (program_cases Join basename os c s evs Hmax) as H.
  by rewrite Hp in H.
Qed.

Lemma program_never_panics_witness :
  (program demo_Join demo_basename demo_os
     (with_size 600 600 {| flagVerbose := true; flagWidth := 1;
                           flagHeight := 1; flagAutoResize := true;
                           flagStepIncrement := 20;
                           flagProfile := EmptyString;
                           Args := ["dir"; "bad.png"] |})
     demo_screen some_events).2 ≠ inr Panic.
Proof.
  apply (program_never_panics demo_Join demo_basename demo_os).
  vm_compute. discriminate.
Defined.

(** X20: with the automatic resize, the values of [width] and [height]
    matter only through the check that they are not zero. *)
Theorem auto_resize_ignores_size Join basename os c s evs width height :
  flagAutoResize c = true → ¬ zero_size c → width ≠ 0 → height ≠ 0 →
  program Join basename os (with_size width height c) s evs
  = program Join basename os c s evs.
Proof.
  intros Hauto Hz Hw Hh. unfold program.
  rewrite (init_nonzero c) by done.
  rewrite (init_nonzero (with_size width height c))
    by (unfold zero_size; simpl; tauto).
  unfold main, callback, window_size, start_profile. simpl.
  rewrite Hauto. reflexivity.
Qed.

Lemma auto_resize_ignores_size_witness :
  program demo_Join demo_basename demo_os
    (with_size 1 2000 auto_resize_cmdline) demo_screen some_events
  = program demo_Join demo_basename demo_os auto_resize_cmdline demo_screen
      some_events.
Proof.
  apply (auto_resize_ignores_size demo_Join demo_basename demo_os
           auto_resize_cmdline demo_screen some_events 1 2000).
  - reflexivity.
  - vm_compute. intros [H|H]; discriminate.
  - discriminate.
  - discriminate.
Defined.

(** X21: the images that the viewer pages through are, in the order of
    the command line, the files that decode among what the arguments
    expand to: a file argument is itself, a directory argument is its
    names with an extension, an argument that [os.Stat] refuses is
    nothing. *)
Theorem viewer_image_list Join basename os c :
  main_names Join basename os c
  = basename <$> filter (decodes os)
                   (flat_map (arg_files Join os) (Args c))
  ∧ Forall2 (fun f im => ∃ kind, decode_result os f = Some (im, kind))
      (filter (decodes os) (flat_map (arg_files Join os) (Args c)))
      (main_imgs Join basename os c).
Proof.
  assert (E : main_files Join os c = flat_map (arg_files Join os) (Args c)).
  { unfold main_files. induction (Args c) as [|f args IH]; [done|].
    rewrite findFiles_cons. simpl. rewrite <- IH. unfold arg_files.
    by destruct (os_Stat os f) as [err|[]]. }
  unfold main_names, main_imgs. rewrite E.
  destruct (decodeImages_decoded basename os
              (flat_map (arg_files Join os) (Args c))) as [-> ->].
  split; [apply decoded_names|apply decoded_imgs].
Qed.

(** ** [display] *)

Lemma Rectangle_In_refl r : Rectangle_In r r = true.
Proof.
  unfold Rectangle_In. destruct (Rectangle_Empty r); [done|].
  by rewrite !Z.leb_refl.
Qed.

(** X22: [display] makes four calls, and the source rectangle of its
    upload always lies in the rectangle of the window: it is the bounds
    of the image when they lie in it and the rectangle of the window
    itself when they do not. The image is uploaded at [vpCenter] moved by
    the pan offset. *)
Theorem display_uploads_inside_window vpCenter sz w0 im :
  ∃ dst sr,
    display vpCenter sz w0 im
    = [ CallFill (image_Rect 0 0 (image.X sz) (image.Y sz));
        CallDraw dst im image.ZP;
        CallUpload
          (Point_Add (vpCenter im (image.X sz) (image.Y sz)) (orig w0)) sr;
        CallPublish ]
    ∧ Rectangle_In sr (image_Rect 0 0 (image.X sz) (image.Y sz)) = true
    ∧ (sr = image.Bounds im
       ∨ (sr = image_Rect 0 0 (image.X sz) (image.Y sz)
          ∧ Rectangle_In (image.Bounds im)
              (image_Rect 0 0 (image.X sz) (image.Y sz)) = false)).
Proof.
  unfold display. eexists _, _. split; [reflexivity|].
  destruct (Rectangle_In (image.Bounds im) _) eqn:E; simpl.
  - split; [done|by left].
  - split; [apply Rectangle_In_refl|by right].
Qed.
